(** * coc-git utilities ([src/util.ts]): shell quoting, process running,
      deep equality and remote URL construction.

    A shallow embedding of the exported functions of [src/util.ts] together
    with the properties stated about them in the specification.

    Conventions of the embedding:
    - a JavaScript string is a [string]; its code units are modelled as
      [ascii] characters (the functions only ever distinguish a handful of
      ASCII characters);
    - a regular-expression replacement is written out as the explicit scan
      that it performs;
    - promises are modelled by their settlement ([Resolved]/[Rejected]) on a
      logical clock counting milliseconds. *)

From Stdlib Require Import ZArith Ascii String List Bool Lia.
From stdpp Require Import base tactics option list strings sorting pretty.

Import ListNotations.
Local Open Scope string_scope.
Local Open Scope list_scope.

(** ** Characters and generic string helpers *)

Abbreviation quote_char := ("'"%char) (only parsing).
Abbreviation backslash_char := ("\"%char) (only parsing).
Abbreviation dquote_char := ("034"%char) (only parsing).

Definition char_in_range (lo hi c : ascii) : bool :=
  (N.leb (N_of_ascii lo) (N_of_ascii c)) && (N.leb (N_of_ascii c) (N_of_ascii hi)).

(** [s.startsWith(pat)] *)
Fixpoint startsWith (s pat : string) {struct pat} : bool :=
  match pat with
  | EmptyString => true
  | String a pat' =>
      match s with
      | EmptyString => false
      | String b s' => Ascii.eqb a b && startsWith s' pat'
      end
  end.

(** [s.includes(sub)] *)
Fixpoint includes (s sub : string) : bool :=
  startsWith s sub ||
  match s with
  | EmptyString => false
  | String _ r => includes r sub
  end.

(** [String.prototype.replace] with a global regular expression that is a
    non-empty literal [pat]: matches are found left to right and do not
    overlap; [skip] counts the characters of the current match still to be
    dropped. *)
Fixpoint replace_go (pat rep : string) (skip : nat) (s : string) : string :=
  match s with
  | EmptyString => EmptyString
  | String c r =>
      match skip with
      | S k => replace_go pat rep k r
      | O =>
          if startsWith s pat
          then rep +:+ replace_go pat rep (String.length pat - 1) r
          else String c (replace_go pat rep 0 r)
      end
  end.

Definition replace_all (pat rep s : string) : string := replace_go pat rep 0 s.

(** ** shellescape *)

(** The character class [[A-Za-z0-9_/:=-]]. *)
Definition is_safe_char (c : ascii) : bool :=
  char_in_range "A" "Z" c || char_in_range "a" "z" c || char_in_range "0" "9" c
  || Ascii.eqb c "_" || Ascii.eqb c "/" || Ascii.eqb c ":" || Ascii.eqb c "="
  || Ascii.eqb c "-".

(** [/[^A-Za-z0-9_\/:=-]/.test(s)] *)
Fixpoint has_unsafe_char (s : string) : bool :=
  match s with
  | EmptyString => false
  | String c r => negb (is_safe_char c) || has_unsafe_char r
  end.

(** [s.replace(/^(?:'')+/g, '')]: the anchored, greedy match removes every
    pair of quotes the string starts with. *)
Fixpoint strip_leading_quote_pairs (s : string) : string :=
  match s with
  | String a (String b r) =>
      if Ascii.eqb a quote_char && Ascii.eqb b quote_char
      then strip_leading_quote_pairs r
      else s
  | _ => s
  end.

(** The replacement of every quote by the four characters
    quote, backslash, quote, quote. *)
Definition escape_quotes (s : string) : string := replace_all "'" "'\''" s.

(** The replacement of every backslash followed by three quotes by a
    backslash and one quote. *)
Definition collapse_empty_quotes (s : string) : string :=
  replace_all "\'''" "\'" s.

Definition shellescape (platform : string) (s : string) : string :=
  if String.eqb platform "win32" then
    String dquote_char
      (replace_all (String dquote_char "")
                   (String backslash_char (String dquote_char "")) s
       +:+ String dquote_char "")
  else if has_unsafe_char s then
    let s := "'" +:+ escape_quotes s +:+ "'" in
    let s := collapse_empty_quotes (strip_leading_quote_pairs s) in
    s
  else s.

(** ** A POSIX shell argument parser

    The reader of the tokens that [shellescape] produces. It follows the
    quoting rules of the POSIX shell command language (section 2.2): an
    unquoted backslash keeps the next character (a backslash-newline pair is
    a line continuation), single quotes keep everything up to the next
    single quote, double quotes keep everything but dollar, backquote and
    backslash, unquoted blanks separate words. Unquoted characters that the
    shell would interpret (operators, expansions, patterns) make the input
    something other than a plain argument list: the parser answers [None]
    for them, as it does for an unterminated quote. *)

Inductive lex_mode : Type :=
  | Plain          (* outside quotes *)
  | Escaped        (* just after an unquoted backslash *)
  | Single         (* inside single quotes *)
  | Double         (* inside double quotes *)
  | DoubleEscaped. (* just after a backslash inside double quotes *)

Abbreviation newline_char := ("010"%char) (only parsing).

Definition is_blank (c : ascii) : bool :=
  Ascii.eqb c " " || Ascii.eqb c "009" || Ascii.eqb c newline_char.

Definition is_shell_special (c : ascii) : bool :=
  existsb (Ascii.eqb c)
    ["|"; "&"; ";"; "<"; ">"; "("; ")"; "$"; "`"; "*"; "?"; "["; "#"; "~"]%char.

(** The word under construction: [None] when no word has been started. *)
Definition push (cur : option string) (c : ascii) : option string :=
  Some (default "" cur +:+ String c "").

Definition open_word (cur : option string) : option string :=
  Some (default "" cur).

Definition close_word (cur : option string) (rest : option (list string))
  : option (list string) :=
  match cur with
  | Some w => cons w <$> rest
  | None => rest
  end.

Fixpoint lex (m : lex_mode) (cur : option string) (s : string)
  : option (list string) :=
  match s with
  | EmptyString =>
      match m with
      | Plain => close_word cur (Some [])
      | _ => None
      end
  | String c r =>
      match m with
      | Plain =>
          if Ascii.eqb c quote_char then lex Single (open_word cur) r
          else if Ascii.eqb c dquote_char then lex Double (open_word cur) r
          else if Ascii.eqb c backslash_char then lex Escaped cur r
          else if is_blank c then close_word cur (lex Plain None r)
          else if is_shell_special c then None
          else lex Plain (push cur c) r
      | Escaped =>
          if Ascii.eqb c newline_char then lex Plain cur r
          else lex Plain (push cur c) r
      | Single =>
          if Ascii.eqb c quote_char then lex Plain cur r
          else lex Single (push cur c) r
      | Double =>
          if Ascii.eqb c dquote_char then lex Plain cur r
          else if Ascii.eqb c backslash_char then lex DoubleEscaped cur r
          else if Ascii.eqb c "$" || Ascii.eqb c "`" then None
          else lex Double (push cur c) r
      | DoubleEscaped =>
          if Ascii.eqb c newline_char then lex Double cur r
          else if Ascii.eqb c "$" || Ascii.eqb c "`" || Ascii.eqb c dquote_char
                  || Ascii.eqb c backslash_char
          then lex Double (push cur c) r
          else lex Double (push (push cur backslash_char) c) r
      end
  end.

Definition posix_words (s : string) : option (list string) := lex Plain None s.

(** ** Running commands

    [child_process.exec] and the timers of the host are the environment of
    these functions. What the environment does with a command is a
    [process_run]: the process either completes after some milliseconds, at
    which point the callback of [exec] is called with [(err, stdout,
    stderr)], or it never completes. A promise is described by its
    settlement and the time at which it settles. *)

(** [err.code] as [exec] reports it: the exit status of the process, the
    name of a system error when the process could not be run, or [null]
    when a signal ended it. *)
Inductive err_code : Type :=
  | ExitCode (n : Z)
  | ErrName (name : string)
  | NoCode.

Definition err_code_to_string (c : err_code) : string :=
  match c with
  | ExitCode n => pretty n
  | ErrName name => name
  | NoCode => "null"
  end.

Record exec_result : Type := mk_exec_result {
  err : option err_code;   (* [None] is the [null] error of a zero exit *)
  stdout : string;
  stderr : string
}.

Inductive process_run : Type :=
  | Completes (at_ms : Z) (res : exec_result)
  | Hangs.

Record Error : Type := mk_Error { message : string }.

Inductive settled (A : Type) : Type :=
  | Resolved (v : A)
  | Rejected (e : Error).
Arguments Resolved {A} v.
Arguments Rejected {A} e.

(** The state of one call: the promise ([None] while pending, otherwise the
    time and value of its settlement) and the delay of the timer if one is
    armed. *)
Record call_state (A : Type) : Type := mk_call_state {
  settlement : option (Z * settled A);
  timer : option Z
}.
Arguments mk_call_state {A} _ _.
Arguments settlement {A} _.
Arguments timer {A} _.

Definition settle {A} (now : Z) (r : settled A) (st : call_state A) : call_state A :=
  match settlement st with
  | Some _ => st   (* settling a settled promise does nothing *)
  | None => mk_call_state (Some (now, r)) (timer st)
  end.

Definition resolve {A} (now : Z) (v : A) : call_state A -> call_state A :=
  settle now (Resolved v).
Definition reject {A} (now : Z) (e : Error) : call_state A -> call_state A :=
  settle now (Rejected e).
Definition setTimeout {A} (delay : Z) (st : call_state A) : call_state A :=
  mk_call_state (settlement st) (Some delay).
Definition clearTimeout {A} (st : call_state A) : call_state A :=
  mk_call_state (settlement st) None.

(** Truthiness of the optional [timeout] argument: absent and [0] are falsy. *)
Definition truthy_timeout (timeout : option Z) : bool :=
  match timeout with
  | Some t => negb (Z.eqb t 0)
  | None => false
  end.

(** The longest delay of a timer of the host, in milliseconds: 2^31 - 1. *)
Definition TIMEOUT_MAX : Z := 2147483647%Z.

(** The delay after which the host runs a timer that was armed with
    [delay]: the host sets a delay below 1 ms or above [TIMEOUT_MAX] to
    1 ms. *)
Definition host_delay (delay : Z) : Z :=
  if Z.leb 1 delay && Z.leb delay TIMEOUT_MAX then delay else 1%Z.
Arguments host_delay : simpl never.

(** The host's event loop for a call that arms at most one timer and waits
    for one [exec] callback. Callbacks run in the order of their times; a
    timer runs only if it is still armed when its delay, as the host counts
    it, has elapsed. A timer that is due at the very moment the process
    completes runs after the [exec] callback, that is, it is cleared by
    it. *)
Definition fire_timer {A} (on_timer : Z -> call_state A -> call_state A)
    (not_before : Z) (st : call_state A) : call_state A :=
  match timer st with
  | Some delay => on_timer (Z.max (host_delay delay) not_before) (clearTimeout st)
  | None => st
  end.

Definition event_loop {A} (init : call_state A)
    (on_timer : Z -> call_state A -> call_state A)
    (on_exec : Z -> exec_result -> call_state A -> call_state A)
    (p : process_run) : option (Z * settled A) :=
  match p with
  | Hangs => settlement (fire_timer on_timer 0%Z init)
  | Completes d res =>
      let st1 :=
        match timer init with
        | Some delay =>
            if Z.ltb (host_delay delay) d then fire_timer on_timer 0%Z init else init
        | None => init
        end in
      let st2 := on_exec d res st1 in
      settlement (fire_timer on_timer d st2)
  end.

Section ProcessRunner.

(** The options record of [exec] is passed through untouched. *)
Variable ExecOptions : Type.
(** What [exec(cmd, opts, callback)] does with a command. *)
Variable exec : string -> ExecOptions -> process_run.

Definition timeout_error (timeout : Z) : Error :=
  mk_Error ("timeout after " +:+ pretty timeout +:+ "s").

(** The part of the promise executor that runs at once: arming the timer. *)
Definition arm_timer {A} (timeout : option Z) : call_state A :=
  let st := mk_call_state None None in
  if truthy_timeout timeout
  then setTimeout (default 0 timeout * 1000)%Z st
  else st.

Definition on_timeout {A} (timeout : option Z) (now : Z) (st : call_state A)
  : call_state A :=
  reject now (timeout_error (default 0%Z timeout)) st.

Definition exec_error (code : err_code) (stderr_text : string) : Error :=
  mk_Error ("exited with " +:+ err_code_to_string code +:+ String newline_char stderr_text).

Definition runCommand_callback (now : Z) (res : exec_result)
    (st : call_state string) : call_state string :=
  let st := match timer st with Some _ => clearTimeout st | None => st end in
  match err res with
  | Some code => reject now (exec_error code (stderr res)) st
  | None => resolve now (stdout res) st
  end.

Definition runCommand (cmd : string) (opts : ExecOptions) (timeout : option Z)
  : option (Z * settled string) :=
  event_loop (arm_timer timeout) (on_timeout timeout) runCommand_callback
             (exec cmd opts).

Definition getStdout_callback (now : Z) (res : exec_result)
    (st : call_state (option string)) : call_state (option string) :=
  let st := match timer st with Some _ => clearTimeout st | None => st end in
  if negb (String.eqb (stdout res) "")
  then resolve now (Some (stdout res)) st
  else resolve now None st.

(** [getStdout] resolves with [undefined] ([None]) when there is no output. *)
Definition getStdout (cmd : string) (opts : ExecOptions) (timeout : option Z)
  : option (Z * settled (option string)) :=
  event_loop (arm_timer timeout) (on_timeout timeout) getStdout_callback
             (exec cmd opts).

(** [safeRun]: the lines written by [console.error] and the settlement of
    the returned promise; [null] is [None]. *)
Definition safeRun (cmd : string) (opts : ExecOptions)
  : list string * option (Z * settled (option string)) :=
  match runCommand cmd opts (Some 5000%Z) with
  | Some (t, Resolved out) => ([], Some (t, Resolved (Some out)))
  | Some (t, Rejected e) => ([message e], Some (t, Resolved None))
  | None => ([], None)
  end.

End ProcessRunner.

(** *** Statements about failures

    A run fails for a caller that passed [timeout] when the process ends
    with an error (a non-zero exit status or an execution error), or when an
    armed timer is run by the host before the process completes. *)
Definition run_fails (timeout : option Z) (p : process_run) : Prop :=
  match p with
  | Completes d res =>
      err res <> None \/
      (truthy_timeout timeout = true /\
       (host_delay (default 0 timeout * 1000) < d)%Z)
  | Hangs => truthy_timeout timeout = true
  end.

(** "On any failure [getStdout] resolves with no value instead of rejecting." *)
Definition getStdout_swallows_failure {ExecOptions : Type}
    (exec : string -> ExecOptions -> process_run)
    (cmd : string) (opts : ExecOptions) (timeout : option Z) : Prop :=
  run_fails timeout (exec cmd opts) ->
  exists t, getStdout ExecOptions exec cmd opts timeout = Some (t, Resolved None).

(** "On any failure [safeRun] resolves with [null] instead of rejecting." *)
Definition safeRun_swallows_failure {ExecOptions : Type}
    (exec : string -> ExecOptions -> process_run)
    (cmd : string) (opts : ExecOptions) : Prop :=
  run_fails (Some 5000%Z) (exec cmd opts) ->
  exists t, snd (safeRun ExecOptions exec cmd opts) = Some (t, Resolved None).

(** "When the command exits with a non-zero code, [runCommand] rejects with
    an error whose message includes that code and the captured standard
    error text." *)
Definition runCommand_reports_exit {ExecOptions : Type}
    (exec : string -> ExecOptions -> process_run)
    (cmd : string) (opts : ExecOptions) (timeout : option Z) : Prop :=
  forall d code out errtxt,
    exec cmd opts = Completes d (mk_exec_result (Some (ExitCode code)) out errtxt) ->
    code <> 0%Z ->
    exists t e,
      runCommand ExecOptions exec cmd opts timeout = Some (t, Rejected e) /\
      includes (message e) (pretty code) = true /\
      includes (message e) errtxt = true.

(** "When the command exits with code zero, [runCommand] resolves with the
    captured standard output text." *)
Definition runCommand_returns_stdout {ExecOptions : Type}
    (exec : string -> ExecOptions -> process_run)
    (cmd : string) (opts : ExecOptions) (timeout : option Z) : Prop :=
  forall d out errtxt,
    exec cmd opts = Completes d (mk_exec_result None out errtxt) ->
    runCommand ExecOptions exec cmd opts timeout = Some (d, Resolved out).

(** No timer is armed, or the process completes before the host runs the
    timer. *)
Definition completes_in_time (timeout : option Z) (p : process_run) : Prop :=
  match p with
  | Completes d _ =>
      truthy_timeout timeout = false \/
      (d < host_delay (default 0 timeout * 1000))%Z
  | Hangs => False
  end.

(** ** equals

    JavaScript values as far as [equals] can tell them apart: the primitive
    values, arrays and plain objects. Arrays and objects carry the identity
    of the object ([===] on objects compares identities, not contents); the
    properties of an object are kept in enumeration order. Numbers are the
    integers that the host represents exactly and prints in full decimal
    (magnitude below 2^53), the infinities and [NaN]. *)

Inductive number : Type :=
  | NInt (z : Z)
  | NInfinity (negative : bool)
  | NNaN.

Definition loc : Type := positive.

#[local] Set Warnings "-register-all".

Inductive value : Type :=
  | VUndefined
  | VNull
  | VBool (b : bool)
  | VNum (n : number)
  | VStr (s : string)
  | VArr (l : loc) (elems : list value)
  | VObj (l : loc) (props : list (string * value)).

(** [a === b] on numbers: [NaN] differs from every number, itself included. *)
Definition number_eqb (a b : number) : bool :=
  match a, b with
  | NInt x, NInt y => Z.eqb x y
  | NInfinity x, NInfinity y => Bool.eqb x y
  | _, _ => false
  end.

(** [one === other] *)
Definition strict_eq (one other : value) : bool :=
  match one, other with
  | VUndefined, VUndefined => true
  | VNull, VNull => true
  | VBool a, VBool b => Bool.eqb a b
  | VNum a, VNum b => number_eqb a b
  | VStr a, VStr b => String.eqb a b
  | VArr l1 _, VArr l2 _ => Pos.eqb l1 l2
  | VObj l1 _, VObj l2 _ => Pos.eqb l1 l2
  | _, _ => false
  end.

Definition typeof (v : value) : string :=
  match v with
  | VUndefined => "undefined"
  | VNull => "object"
  | VBool _ => "boolean"
  | VNum _ => "number"
  | VStr _ => "string"
  | VArr _ _ => "object"
  | VObj _ _ => "object"
  end.

Definition isArray (v : value) : bool :=
  match v with
  | VArr _ _ => true
  | _ => false
  end.

Definition is_null (v : value) : bool :=
  match v with VNull => true | _ => false end.
Definition is_undefined (v : value) : bool :=
  match v with VUndefined => true | _ => false end.

(** [v.length] of an array, [v[i]] and [v[key]]; reading what is not there
    gives [undefined]. *)
Definition array_length (v : value) : nat :=
  match v with
  | VArr _ elems => length elems
  | _ => 0
  end.

Definition get_index (v : value) (i : nat) : value :=
  match v with
  | VArr _ elems => default VUndefined (elems !! i)
  | _ => VUndefined
  end.

Fixpoint lookup_prop (props : list (string * value)) (key : string) : value :=
  match props with
  | [] => VUndefined
  | (k, v) :: rest => if String.eqb k key then v else lookup_prop rest key
  end.

Definition get_prop (v : value) (key : string) : value :=
  match v with
  | VObj _ props => lookup_prop props key
  | _ => VUndefined
  end.

(** [for (key in v) keys.push(key)] *)
Definition keys_in (v : value) : list string :=
  match v with
  | VObj _ props => fst <$> props
  | _ => []
  end.

(** [keys.sort()]: ascending order of the code units. *)
Definition sort_keys (keys : list string) : list string :=
  merge_sort String.le keys.

(** The two key arrays are freshly allocated: they are different objects. *)
Definition fresh_array (l : loc) (keys : list string) : value :=
  VArr l (VStr <$> keys).

(** [for (...) { if (!equals(x, y)) return false }] over the pairs the loop
    visits; [None] when a comparison runs out of fuel. *)
Fixpoint all_equal (eq : value -> value -> option bool)
    (pairs : list (value * value)) : option bool :=
  match pairs with
  | [] => Some true
  | (x, y) :: rest =>
      match eq x y with
      | Some true => all_equal eq rest
      | Some false => Some false
      | None => None
      end
  end.

(** [equals], with [fuel] bounding the depth of the recursion. *)
Fixpoint equals (fuel : nat) (one other : value) : option bool :=
  match fuel with
  | O => None
  | S fuel =>
      if strict_eq one other then Some true
      else if is_null one || is_undefined one || is_null other || is_undefined other
      then Some false
      else if negb (String.eqb (typeof one) (typeof other)) then Some false
      else if negb (String.eqb (typeof one) "object") then Some false
      else if negb (Bool.eqb (isArray one) (isArray other)) then Some false
      else if isArray one then
        if negb (Nat.eqb (array_length one) (array_length other)) then Some false
        else
          all_equal (equals fuel)
            ((fun i => (get_index one i, get_index other i))
               <$> seq 0 (array_length one))
      else
        let oneKeys := sort_keys (keys_in one) in
        let otherKeys := sort_keys (keys_in other) in
        match equals fuel (fresh_array 1%positive oneKeys) (fresh_array 2%positive otherKeys) with
        | None => None
        | Some false => Some false
        | Some true =>
            all_equal (equals fuel)
              ((fun key => (get_prop one key, get_prop other key)) <$> oneKeys)
        end
  end.

(** Fuel that is enough for [equals one other], whatever [other] is. *)
Fixpoint fuel_for (one : value) : nat :=
  match one with
  | VArr _ elems => S (foldr (fun x m => Nat.max (fuel_for x) m) 0 elems)
  | VObj _ props => S (foldr (fun p m => Nat.max (fuel_for (snd p)) m) 2 props)
  | _ => 1
  end.

(** The fuel left for the values of a mapping [ps], once [fuel_for] has
    paid for the mapping itself. *)
Definition fuel_for_values (ps : list (string * value)) : nat :=
  foldr (fun p m => Nat.max (fuel_for (snd p)) m) 2 ps.

(** Is the number [NaN] *)
Definition is_NaN (v : value) : bool :=
  match v with
  | VNum NNaN => true
  | _ => false
  end.

(** An object has each property once. *)
Definition distinct_keys (props : list (string * value)) : Prop :=
  NoDup (fst <$> props).

(** [b] is a copy of [a]: the same primitive values (values that [===]
    equates, so not [NaN]), arrays of copies, and objects with copies at
    the same keys; the identities of the arrays and objects are free. *)
Inductive copy_of : value -> value -> Prop :=
  | copy_prim (a : value) :
      typeof a <> "object" \/ a = VNull -> strict_eq a a = true -> copy_of a a
  | copy_arr (l l' : loc) (xs ys : list value) :
      Forall2 copy_of xs ys -> copy_of (VArr l xs) (VArr l' ys)
  | copy_obj (l l' : loc) (ps qs : list (string * value)) :
      Forall2 (fun p q => fst p = fst q /\ copy_of (snd p) (snd q)) ps qs ->
      copy_of (VObj l ps) (VObj l' qs).

(** "[equals(one, other)] returns [r]": some depth of recursion is enough
    for the call to return [r]. *)
Definition equals_returns (one other : value) (r : bool) : Prop :=
  exists fuel, equals fuel one other = Some r.

(** [null] or [undefined] *)
Definition nullish (v : value) : bool := is_null v || is_undefined v.

(** ** getUrl *)

(** [s.replace(/suffix$/, '')] for a literal suffix. *)
Fixpoint remove_suffix (suffix s : string) : string :=
  match s with
  | EmptyString => EmptyString
  | String c r => if String.eqb s suffix then EmptyString else String c (remove_suffix suffix r)
  end.

(** [s.slice(n)] *)
Fixpoint slice (n : nat) (s : string) : string :=
  match n, s with
  | S k, String _ r => slice k r
  | _, _ => s
  end.

(** [s.split(sep)] for a one-character separator. *)
Fixpoint split_on (sep : ascii) (s : string) : list string :=
  match s with
  | EmptyString => [EmptyString]
  | String c r =>
      if Ascii.eqb c sep then EmptyString :: split_on sep r
      else
        match split_on sep r with
        | piece :: pieces => String c piece :: pieces
        | [] => [String c EmptyString]
        end
  end.

(** [parts[i]] inside a template literal: a missing element prints as
    ["undefined"]. *)
Definition part_text (parts : list string) (i : nat) : string :=
  default "undefined" (parts !! i).

(** A number inside a template literal. An integer is printed in full
    decimal, as the host does below 10^21 in magnitude (so for every line
    number it can count to). *)
Definition number_to_string (n : number) : string :=
  match n with
  | NInt z => pretty z
  | NInfinity false => "Infinity"
  | NInfinity true => "-Infinity"
  | NNaN => "NaN"
  end.

(** The optional [lines] argument: absent, an array of numbers or a string. *)
Inductive lines_arg : Type :=
  | NoLines
  | LineNumbers (ls : list number)
  | LineAnchor (anchor : string).

(** What [Uri.parse] returns. *)
Record Uri : Type := mk_Uri {
  scheme : string;
  authority : string;
  path : string;
  query : string;
  fragment : string
}.

(** A call of [workspace.showMessage]. *)
Record notification : Type := mk_notification {
  text : string;
  severity : string
}.

(** The remote with its [.git] suffix removed and, when it starts with
    [git], rewritten to an https URL. *)
Definition remote_uri (remote : string) : string :=
  let uri := remove_suffix ".git" remote in
  if startsWith uri "git" then
    let str := slice 4 uri in
    let parts := take 2 (split_on ":" str) in
    "https://" +:+ part_text parts 0 +:+ "/" +:+ part_text parts 1
  else uri.

Definition line_anchor (lines : lines_arg) : string :=
  match lines with
  | LineNumbers ls => String.concat "-" ((fun l => "L" +:+ number_to_string l) <$> ls)
  | LineAnchor anchor => anchor
  | NoLines => ""
  end.

Section RemoteUrl.

(** The URI parser of the editor library; [None] when the call throws. *)
Variable Uri_parse : string -> option Uri.

(** [getUrl]: the returned string and the messages shown to the user, or
    [None] when the call throws: an exception of [Uri.parse] is not caught,
    and nothing else in the function throws. *)
Definition getUrl (remote branch filepath : string) (lines : lines_arg)
  : option (string * list notification) :=
  let uri := remote_uri remote in
  match Uri_parse uri with
  | None => None
  | Some u =>
      if startsWith (authority u) "github.com" then
        let anchor := line_anchor lines in
        Some (uri +:+ "/blob/" +:+ branch +:+ "/" +:+ filepath
                  +:+ (if String.eqb anchor "" then "" else "#" +:+ anchor),
              [])
      else
        Some ("", [mk_notification ("Can't get url form: " +:+ authority u)
                                   "warning"])
  end.


End RemoteUrl.

(** Modelled from the spec: [Uri.parse] of the editor library is not part of
    the sources; the spec describes it as a URI parser that decomposes an
    absolute URL string into components including the authority
    ([host[:port]]). The decomposition below is the one of RFC 3986,
    appendix B: [scheme:] [//authority] path [?query] [#fragment]. The
    parser throws on a string that breaks the rule of RFC 3986, section
    3.3, which the decomposition can break: without an authority, the path
    cannot begin with two slashes. *)
Fixpoint take_until (stop : ascii -> bool) (s : string) : string * string :=
  match s with
  | EmptyString => (EmptyString, EmptyString)
  | String c r =>
      if stop c then (EmptyString, s)
      else let '(a, b) := take_until stop r in (String c a, b)
  end.

Definition is_one_of (cs : list ascii) (c : ascii) : bool :=
  existsb (Ascii.eqb c) cs.

Definition decompose_uri (s : string) : Uri :=
  let '(sch, rest) :=
    match take_until (is_one_of [":"; "/"; "?"; "#"]%char) s with
    | (String c sch, String ":" rest) => (String c sch, rest)
    | _ => (EmptyString, s)
    end in
  let '(auth, rest) :=
    match rest with
    | String "/" (String "/" rest') => take_until (is_one_of ["/"; "?"; "#"]%char) rest'
    | _ => (EmptyString, rest)
    end in
  let '(pth, rest) := take_until (is_one_of ["?"; "#"]%char) rest in
  let '(qry, rest) :=
    match rest with
    | String "?" rest' => take_until (is_one_of ["#"]%char) rest'
    | _ => (EmptyString, rest)
    end in
  mk_Uri sch auth pth qry (slice 1 rest).

Definition parse_uri (s : string) : option Uri :=
  let u := decompose_uri s in
  if String.eqb (authority u) "" && startsWith (path u) "//" then None
  else Some u.

(** *** Example environments *)

(** [sleep 10]: ten seconds, no output, exit status zero. *)
Definition sleep_10 (cmd : string) (opts : unit) : process_run :=
  Completes 10000 (mk_exec_result None "" "").

(** [sleep 3; printf boom >&2; exit 2] *)
Definition slow_failure (cmd : string) (opts : unit) : process_run :=
  Completes 3000 (mk_exec_result (Some (ExitCode 2)) "" "boom").

(** [sleep 0.3; exit 1] *)
Definition short_failure (cmd : string) (opts : unit) : process_run :=
  Completes 300 (mk_exec_result (Some (ExitCode 1)) "" "").

(** [exit 1], at once. *)
Definition exit_1 (cmd : string) (opts : unit) : process_run :=
  Completes 5 (mk_exec_result (Some (ExitCode 1)) "" "").

(** [printf partial; exit 1] *)
Definition partial_output (cmd : string) (opts : unit) : process_run :=
  Completes 5 (mk_exec_result (Some (ExitCode 1)) "partial" "").

(** A process that never ends. *)
Definition never_ends (cmd : string) (opts : unit) : process_run := Hangs.

(** Does the [lines] argument select any line: an empty array and an empty
    string do not. *)
Definition selects_lines (lines : lines_arg) : bool :=
  match lines with
  | NoLines => false
  | LineNumbers [] => false
  | LineNumbers (_ :: _) => true
  | LineAnchor anchor => negb (String.eqb anchor "")
  end.

(** ** spawnCommand and runCommandWithData

    [child_process.spawn] is the environment: given the command, its
    arguments, the working directory and what is written to the standard
    input of the process ([None]: nothing is written and the stream is left
    open), it answers with the events the child process emits, in order. *)

Inductive spawn_event : Type :=
  | StdoutData (data : string)   (* [cp.stdout.on('data', ...)] *)
  | StderrData (data : string)   (* [cp.stderr.on('data', ...)] *)
  | Close (code : option Z).     (* [cp.on('close', ...)]; [None] is [null] *)

(** The variable [res], the promise and the messages shown so far. *)
Record spawn_state : Type := mk_spawn_state {
  res : string;
  outcome : option (settled string);
  shown : list notification
}.

(** [code != 0]: [null] is not loosely equal to [0]. *)
Definition code_nonzero (code : option Z) : bool :=
  match code with
  | Some n => negb (Z.eqb n 0)
  | None => true
  end.

Definition code_to_string (code : option Z) : string :=
  match code with
  | Some n => pretty n
  | None => "null"
  end.

Definition stderr_message (cmd : string) (args : list string) (data : string)
  : notification :=
  mk_notification
    (String dquote_char (cmd +:+ " " +:+ String.concat " " args)
     +:+ String dquote_char " error: " +:+ data)
    "error".

Definition exit_error (cmd : string) (code : option Z) : Error :=
  mk_Error (cmd +:+ " exited with code " +:+ code_to_string code).

(** One event handled by the listeners that both functions register. *)
Definition spawn_step (cmd : string) (args : list string)
    (st : spawn_state) (ev : spawn_event) : spawn_state :=
  match ev with
  | StdoutData data => mk_spawn_state (res st +:+ data) (outcome st) (shown st)
  | StderrData data =>
      mk_spawn_state (res st) (outcome st) (shown st ++ [stderr_message cmd args data])
  | Close code =>
      match outcome st with
      | Some _ => st   (* settling a settled promise does nothing *)
      | None =>
          if code_nonzero code
          then mk_spawn_state (res st) (Some (Rejected (exit_error cmd code))) (shown st)
          else mk_spawn_state (res st) (Some (Resolved (res st))) (shown st)
      end
  end.

Definition run_listeners (cmd : string) (args : list string)
    (events : list spawn_event) : spawn_state :=
  foldl (spawn_step cmd args) (mk_spawn_state "" None []) events.

Section Spawn.

Variable spawn :
  string -> list string -> string -> option string -> list spawn_event.

(** The settlement of the returned promise ([None]: it stays pending) and
    the messages shown. *)
Definition spawnCommand (cmd : string) (args : list string) (cwd : string)
  : option (settled string) * list notification :=
  let st := run_listeners cmd args (spawn cmd args cwd None) in
  (outcome st, shown st).

Definition runCommandWithData (cmd : string) (args : list string)
    (cwd data : string) : option (settled string) * list notification :=
  let st := run_listeners cmd args (spawn cmd args cwd (Some data)) in
  (outcome st, shown st).

End Spawn.

(** The text of the [stdout] chunks and the list of the [stderr] chunks of a
    sequence of events. *)
Fixpoint stdout_text (events : list spawn_event) : string :=
  match events with
  | [] => ""
  | StdoutData data :: rest => data +:+ stdout_text rest
  | _ :: rest => stdout_text rest
  end.

Fixpoint stderr_chunks (events : list spawn_event) : list string :=
  match events with
  | [] => []
  | StderrData data :: rest => data :: stderr_chunks rest
  | _ :: rest => stderr_chunks rest
  end.

Definition is_close (ev : spawn_event) : bool :=
  match ev with
  | Close _ => true
  | _ => false
  end.

(** [git log], printing in two chunks with a warning in between. *)
Definition chatty_git (cmd : string) (args : list string) (cwd : string)
    (input : option string) : list spawn_event :=
  [StdoutData "commit 1"; StderrData "warning: x"; StdoutData "commit 2";
   Close (Some 0%Z)].

(** A process that echoes its standard input and fails with status 3. *)
Definition failing_filter (cmd : string) (args : list string) (cwd : string)
    (input : option string) : list spawn_event :=
  [StdoutData (default "" input); StderrData "fatal"; Close (Some 3%Z)].

(** A process that prints and is never closed. *)
Definition never_closes (cmd : string) (args : list string) (cwd : string)
    (input : option string) : list spawn_event :=
  [StdoutData "partial"].

(** * Properties *)

(** ** shellescape and the shell parser *)

Lemma app_cons c s r : String c s +:+ r = String c (s +:+ r).
Proof. reflexivity. Qed.
Lemma app_empty r : "" +:+ r = r.
Proof. reflexivity. Qed.
Lemma app_assoc_str (a b c : string) : (a +:+ b) +:+ c = a +:+ (b +:+ c).
Proof. induction a as [|x a IH]; [reflexivity|]. rewrite !app_cons, IH. reflexivity. Qed.
Lemma app_empty_r (a : string) : a +:+ "" = a.
Proof. induction a as [|x a IH]; [reflexivity|]. rewrite app_cons, IH. reflexivity. Qed.


Lemma replace_go_cons pat rep c r :
  replace_go pat rep 0 (String c r) =
  if startsWith (String c r) pat
  then rep +:+ replace_go pat rep (String.length pat - 1) r
  else String c (replace_go pat rep 0 r).
Proof. reflexivity. Qed.

Lemma startsWith_cons a p b s :
  startsWith (String b s) (String a p) = Ascii.eqb a b && startsWith s p.
Proof. reflexivity. Qed.

Lemma eqb_ne (a c : ascii) : c <> a -> Ascii.eqb a c = false.
Proof. intros H. destruct (Ascii.eqb_spec a c); [congruence|reflexivity]. Qed.

Lemma eqb_ne' (a c : ascii) : c <> a -> Ascii.eqb c a = false.
Proof. intros H. destruct (Ascii.eqb_spec c a); [congruence|reflexivity]. Qed.

Lemma esc_quote r : escape_quotes (String quote_char r) = "'\''" +:+ escape_quotes r.
Proof. reflexivity. Qed.

Lemma esc_other c r : c <> quote_char -> escape_quotes (String c r) = String c (escape_quotes r).
Proof.
  intros Hc. unfold escape_quotes, replace_all.
  rewrite replace_go_cons, startsWith_cons, (eqb_ne _ _ Hc). reflexivity.
Qed.

Lemma collapse_other c r : c <> backslash_char -> collapse_empty_quotes (String c r) = String c (collapse_empty_quotes r).
Proof.
  intros Hc. unfold collapse_empty_quotes, replace_all.
  rewrite replace_go_cons, startsWith_cons, (eqb_ne _ _ Hc). reflexivity.
Qed.

Lemma collapse_match r : collapse_empty_quotes ("\'''" +:+ r) = "\'" +:+ collapse_empty_quotes r.
Proof. reflexivity. Qed.

Lemma collapse_backslash r :
  startsWith r "'''" = false ->
  collapse_empty_quotes (String backslash_char r) = String backslash_char (collapse_empty_quotes r).
Proof.
  intros H. unfold collapse_empty_quotes, replace_all.
  change (replace_go "\'''" "\'" 0 (String backslash_char r))
    with (if startsWith r "'''"
          then "\'" +:+ replace_go "\'''" "\'" 3 r
          else String backslash_char (replace_go "\'''" "\'" 0 r)).
  rewrite H; reflexivity.
Qed.

Lemma push_some w c : push (Some w) c = Some (w +:+ String c "").
Proof. reflexivity. Qed.

Lemma app_snoc w c s : (w +:+ String c "") +:+ s = w +:+ String c s.
Proof. rewrite app_assoc_str. reflexivity. Qed.

Lemma startsWith_esc_tail s : startsWith (escape_quotes s +:+ "'") "'''" = false.
Proof.
  destruct s as [|c s]; [reflexivity|].
  destruct (Ascii.eqb_spec c quote_char) as [->|Hc].
  - reflexivity.
  - rewrite esc_other by assumption. rewrite app_cons.
    rewrite startsWith_cons, (eqb_ne _ _ Hc). reflexivity.
Qed.

Lemma lex_single_other cur c r :
  c <> quote_char -> lex Single cur (String c r) = lex Single (push cur c) r.
Proof.
  intros Hc. change (lex Single cur (String c r))
    with (if Ascii.eqb c quote_char then lex Plain cur r else lex Single (push cur c) r).
  rewrite (eqb_ne' _ _ Hc). reflexivity.
Qed.

(** Reading the rest of the token of [s], once the cleanup has run over
    it: from inside a quoted segment with the word [w] read so far, and
    from an escaped quote onwards. *)
Lemma lex_quoted_token s :
  (forall w, lex Single (Some w) (collapse_empty_quotes (escape_quotes s +:+ "'")) = Some [w +:+ s]) /\
  (forall cur, lex Plain cur (collapse_empty_quotes ("\''" +:+ escape_quotes s +:+ "'"))
               = Some [default "" cur +:+ String quote_char s]).
Proof.
  induction s as [|c s [IHq IHe]].
  - split.
    + intros w. simpl. rewrite app_empty_r. reflexivity.
    + intros cur. reflexivity.
  - assert (Hq : forall w, lex Single (Some w) (collapse_empty_quotes (escape_quotes (String c s) +:+ "'"))
                           = Some [w +:+ String c s]).
    { intros w. destruct (Ascii.eqb_spec c quote_char) as [->|Hc].
      - rewrite esc_quote.
        change (("'\''" +:+ escape_quotes s) +:+ "'") with (String quote_char ("\''" +:+ escape_quotes s +:+ "'")).
        rewrite collapse_other by discriminate.
        change (lex Single (Some w) (String quote_char (collapse_empty_quotes ("\''" +:+ escape_quotes s +:+ "'"))))
          with (lex Plain (Some w) (collapse_empty_quotes ("\''" +:+ escape_quotes s +:+ "'"))).
        apply (IHe (Some w)).
      - rewrite esc_other by assumption. rewrite app_cons.
        assert (Hstep : collapse_empty_quotes (String c (escape_quotes s +:+ "'")) = String c (collapse_empty_quotes (escape_quotes s +:+ "'"))).
        { destruct (Ascii.eqb_spec c backslash_char) as [->|Hb].
          - apply collapse_backslash, startsWith_esc_tail.
          - apply collapse_other; assumption. }
        rewrite Hstep, (lex_single_other _ _ _ Hc).
        rewrite push_some, IHq, app_snoc. reflexivity. }
    split; [exact Hq|].
    intros cur. destruct (Ascii.eqb_spec c quote_char) as [->|Hc].
    + rewrite esc_quote.
      change ("\''" +:+ ("'\''" +:+ escape_quotes s) +:+ "'")
        with ("\'''" +:+ ("\''" +:+ escape_quotes s +:+ "'")).
      rewrite collapse_match.
      change (lex Plain cur ("\'" +:+ collapse_empty_quotes ("\''" +:+ escape_quotes s +:+ "'")))
        with (lex Plain (push cur quote_char) (collapse_empty_quotes ("\''" +:+ escape_quotes s +:+ "'"))).
      unfold push. rewrite IHe. simpl default. rewrite app_snoc. reflexivity.
    + change ("\''" +:+ escape_quotes (String c s) +:+ "'")
        with (String backslash_char (String quote_char (String quote_char (escape_quotes (String c s) +:+ "'")))).
      rewrite collapse_backslash.
      2:{ rewrite esc_other by assumption.
          rewrite app_cons, !startsWith_cons, (eqb_ne _ _ Hc), andb_false_r.
          reflexivity. }
      rewrite !collapse_other by discriminate.
      change (lex Plain cur (String backslash_char (String quote_char (String quote_char
                (collapse_empty_quotes (escape_quotes (String c s) +:+ "'"))))))
        with (lex Single (push cur quote_char) (collapse_empty_quotes (escape_quotes (String c s) +:+ "'"))).
      unfold push. rewrite Hq, app_snoc. reflexivity.
Qed.

Lemma has_unsafe_char_quote a b : has_unsafe_char (a +:+ String quote_char b) = true.
Proof.
  induction a as [|c a IH].
  - reflexivity.
  - rewrite app_cons. cbn [has_unsafe_char]. rewrite IH. apply orb_true_r.
Qed.

Lemma shellescape_posix platform s :
  platform <> "win32" ->
  has_unsafe_char s = true ->
  shellescape platform s =
  collapse_empty_quotes (strip_leading_quote_pairs ("'" +:+ escape_quotes s +:+ "'")).
Proof.
  intros Hp Hs. unfold shellescape.
  destruct (String.eqb_spec platform "win32") as [E|_]; [contradiction|].
  rewrite Hs. reflexivity.
Qed.

Lemma quoted_token_parses s :
  s <> "" ->
  posix_words (collapse_empty_quotes (strip_leading_quote_pairs ("'" +:+ escape_quotes s +:+ "'"))) = Some [s].
Proof.
  destruct s as [|c s]; [congruence|]. intros _.
  destruct (Ascii.eqb_spec c quote_char) as [->|Hc].
  - rewrite esc_quote.
    change (strip_leading_quote_pairs ("'" +:+ ("'\''" +:+ escape_quotes s) +:+ "'"))
      with ("\''" +:+ escape_quotes s +:+ "'").
    unfold posix_words. rewrite (proj2 (lex_quoted_token s) None). reflexivity.
  - rewrite esc_other by assumption.
    change ("'" +:+ String c (escape_quotes s) +:+ "'")
      with (String quote_char (String c (escape_quotes s +:+ "'"))).
    assert (Hstrip : strip_leading_quote_pairs (String quote_char (String c (escape_quotes s +:+ "'")))
                     = String quote_char (String c (escape_quotes s +:+ "'"))).
    { change (strip_leading_quote_pairs (String quote_char (String c (escape_quotes s +:+ "'"))))
        with (if Ascii.eqb quote_char quote_char && Ascii.eqb c quote_char
              then strip_leading_quote_pairs (escape_quotes s +:+ "'")
              else String quote_char (String c (escape_quotes s +:+ "'"))).
      rewrite (eqb_ne' _ _ Hc), andb_false_r. reflexivity. }
    rewrite Hstrip, collapse_other by discriminate.
    rewrite <- app_cons, <- (esc_other c s Hc).
    unfold posix_words.
    change (lex Plain None (String quote_char (collapse_empty_quotes (escape_quotes (String c s) +:+ "'"))))
      with (lex Single (Some "") (collapse_empty_quotes (escape_quotes (String c s) +:+ "'"))).
    rewrite (proj1 (lex_quoted_token (String c s)) ""). reflexivity.
Qed.

(** C1. On a platform other than win32, for every string [s] that contains
    a single quote, the token [shellescape s] (the quoting followed by the
    two cleanup passes) is read back by the shell parser as the one
    argument [s]. *)
Theorem shellescape_roundtrip_quote (platform s : string) :
  platform <> "win32" ->
  (exists a b, s = a +:+ String quote_char b) ->
  posix_words (shellescape platform s) = Some [s].
Proof.
  intros Hp (a & b & ->).
  rewrite shellescape_posix by (try assumption; apply has_unsafe_char_quote).
  apply quoted_token_parses. destruct a; discriminate.
Qed.

(** C1 at a quote in the middle, a leading quote and a run of quotes. *)
Lemma shellescape_roundtrip_quote_witness :
  posix_words (shellescape "linux" "it's") = Some ["it's"]
  /\ posix_words (shellescape "linux" "'x") = Some ["'x"]
  /\ posix_words (shellescape "darwin" "a'''") = Some ["a'''"].
Proof.
  split; [|split]; apply shellescape_roundtrip_quote; try discriminate.
  - exists "it", "s". reflexivity.
  - exists "", "x". reflexivity.
  - exists "a", "''". reflexivity.
Defined.

(** ** Running commands *)

(** *** Substrings *)

Lemma startsWith_app (b c : string) : startsWith (b +:+ c) b = true.
Proof.
  induction b as [|x b IH]; [reflexivity|].
  rewrite app_cons. cbn [startsWith]. rewrite Ascii.eqb_refl, IH. reflexivity.
Qed.

Lemma includes_here (s sub : string) : startsWith s sub = true -> includes s sub = true.
Proof. intros H. destruct s; cbn [includes]; rewrite H; reflexivity. Qed.

Lemma includes_app_r (a r sub : string) :
  includes r sub = true -> includes (a +:+ r) sub = true.
Proof.
  intros H. induction a as [|x a IH]; [exact H|].
  rewrite app_cons. cbn [includes]. rewrite IH. apply orb_true_r.
Qed.

Lemma includes_self (s : string) : includes s s = true.
Proof.
  apply includes_here. induction s as [|x s IH]; [reflexivity|].
  cbn [startsWith]. rewrite Ascii.eqb_refl, IH. reflexivity.
Qed.

Lemma includes_middle (a b c : string) : includes (a +:+ b +:+ c) b = true.
Proof. apply includes_app_r, includes_here, startsWith_app. Qed.

Section ProcessRunnerFacts.

Variable ExecOptions : Type.
Variable exec : string -> ExecOptions -> process_run.

Local Open Scope Z_scope.

Lemma host_delay_pos (delay : Z) : 1 <= host_delay delay.
Proof.
  unfold host_delay.
  destruct (Z.leb_spec 1 delay); destruct (Z.leb_spec delay TIMEOUT_MAX); simpl; lia.
Qed.

Lemma host_delay_in_range (delay : Z) :
  1 <= delay <= TIMEOUT_MAX -> host_delay delay = delay.
Proof.
  intros [H1 H2]. unfold host_delay.
  destruct (Z.leb_spec 1 delay); destruct (Z.leb_spec delay TIMEOUT_MAX); simpl; lia.
Qed.

Lemma host_delay_out_of_range (delay : Z) :
  delay < 1 \/ TIMEOUT_MAX < delay -> host_delay delay = 1.
Proof.
  intros H. unfold host_delay.
  destruct (Z.leb_spec 1 delay); destruct (Z.leb_spec delay TIMEOUT_MAX); simpl; lia.
Qed.

Lemma host_delay_le (delay : Z) : host_delay delay <= Z.max delay 1.
Proof.
  unfold host_delay.
  destruct (Z.leb_spec 1 delay); destruct (Z.leb_spec delay TIMEOUT_MAX); simpl; lia.
Qed.

Lemma arm_timer_truthy {A} (t : Z) :
  t <> 0 -> @arm_timer A (Some t) = mk_call_state None (Some (t * 1000)).
Proof.
  intros Ht. unfold arm_timer, truthy_timeout.
  destruct (Z.eqb_spec t 0) as [E|_]; [contradiction|]. reflexivity.
Qed.

Lemma arm_timer_falsy {A} (timeout : option Z) :
  truthy_timeout timeout = false -> @arm_timer A timeout = mk_call_state None None.
Proof. intros H. unfold arm_timer. rewrite H. reflexivity. Qed.

Lemma truthy_timeout_false (timeout : option Z) :
  truthy_timeout timeout = false <-> timeout = None \/ timeout = Some 0.
Proof.
  destruct timeout as [t|]; simpl.
  - destruct (Z.eqb_spec t 0) as [E|Hne]; simpl.
    + subst t. split; auto.
    + split; [discriminate|]. intros [H|H]; [discriminate|].
      exfalso. apply Hne. congruence.
  - split; auto.
Qed.

(** What the callback of [exec] makes of a result. *)
Lemma runCommand_unarmed cmd opts timeout :
  truthy_timeout timeout = false ->
  runCommand ExecOptions exec cmd opts timeout =
  match exec cmd opts with
  | Hangs => None
  | Completes d res =>
      Some (d, match err res with
               | Some code => Rejected (exec_error code (stderr res))
               | None => Resolved (stdout res)
               end)
  end.
Proof.
  intros H. unfold runCommand. rewrite (arm_timer_falsy _ H).
  destruct (exec cmd opts) as [d res|]; [|reflexivity].
  unfold event_loop, runCommand_callback; simpl.
  destruct (err res); reflexivity.
Qed.

Lemma runCommand_timer_first cmd opts t :
  t <> 0 ->
  (exec cmd opts = Hangs \/
   exists d res, exec cmd opts = Completes d res /\ host_delay (t * 1000) < d) ->
  runCommand ExecOptions exec cmd opts (Some t) =
  Some (host_delay (t * 1000), Rejected (timeout_error t)).
Proof.
  intros Ht Hp. unfold runCommand. rewrite (arm_timer_truthy _ Ht).
  pose proof (host_delay_pos (t * 1000)) as Hpos.
  destruct Hp as [->|(d & res & -> & Hlt)].
  - cbn [event_loop fire_timer timer]. rewrite Z.max_l by lia. reflexivity.
  - cbn [event_loop timer].
    destruct (Z.ltb_spec (host_delay (t * 1000)) d) as [_|Hge]; [|lia].
    cbn [fire_timer timer]. rewrite Z.max_l by lia.
    unfold runCommand_callback. cbn.
    destruct (err res); reflexivity.
Qed.

Lemma runCommand_exec_first cmd opts t d res :
  t <> 0 ->
  exec cmd opts = Completes d res -> d <= host_delay (t * 1000) ->
  runCommand ExecOptions exec cmd opts (Some t) =
  Some (d, match err res with
           | Some code => Rejected (exec_error code (stderr res))
           | None => Resolved (stdout res)
           end).
Proof.
  intros Ht Hp Hle. unfold runCommand. rewrite (arm_timer_truthy _ Ht), Hp.
  cbn [event_loop timer].
  destruct (Z.ltb_spec (host_delay (t * 1000)) d) as [Hlt|_]; [lia|].
  unfold runCommand_callback. cbn.
  destruct (err res); reflexivity.
Qed.

Lemma getStdout_unarmed cmd opts timeout :
  truthy_timeout timeout = false ->
  getStdout ExecOptions exec cmd opts timeout =
  match exec cmd opts with
  | Hangs => None
  | Completes d res =>
      Some (d, Resolved (if String.eqb (stdout res) "" then None else Some (stdout res)))
  end.
Proof.
  intros H. unfold getStdout. rewrite (arm_timer_falsy _ H).
  destruct (exec cmd opts) as [d res|]; [|reflexivity].
  unfold event_loop, getStdout_callback; simpl.
  destruct (String.eqb (stdout res) ""); reflexivity.
Qed.

Lemma getStdout_timer_first cmd opts t :
  t <> 0 ->
  (exec cmd opts = Hangs \/
   exists d res, exec cmd opts = Completes d res /\ host_delay (t * 1000) < d) ->
  getStdout ExecOptions exec cmd opts (Some t) =
  Some (host_delay (t * 1000), Rejected (timeout_error t)).
Proof.
  intros Ht Hp. unfold getStdout. rewrite (arm_timer_truthy _ Ht).
  pose proof (host_delay_pos (t * 1000)) as Hpos.
  destruct Hp as [->|(d & res & -> & Hlt)].
  - cbn [event_loop fire_timer timer]. rewrite Z.max_l by lia. reflexivity.
  - cbn [event_loop timer].
    destruct (Z.ltb_spec (host_delay (t * 1000)) d) as [_|Hge]; [|lia].
    cbn [fire_timer timer]. rewrite Z.max_l by lia.
    unfold getStdout_callback. cbn.
    destruct (String.eqb (stdout res) ""); reflexivity.
Qed.

Lemma getStdout_exec_first cmd opts t d res :
  t <> 0 ->
  exec cmd opts = Completes d res -> d <= host_delay (t * 1000) ->
  getStdout ExecOptions exec cmd opts (Some t) =
  Some (d, Resolved (if String.eqb (stdout res) "" then None else Some (stdout res))).
Proof.
  intros Ht Hp Hle. unfold getStdout. rewrite (arm_timer_truthy _ Ht), Hp.
  cbn [event_loop timer].
  destruct (Z.ltb_spec (host_delay (t * 1000)) d) as [Hlt|_]; [lia|].
  unfold getStdout_callback. cbn.
  destruct (String.eqb (stdout res) ""); reflexivity.
Qed.

End ProcessRunnerFacts.

Section ProcessRunnerClaims.

Variable ExecOptions : Type.
Variable exec : string -> ExecOptions -> process_run.

Local Open Scope Z_scope.

(** What [safeRun] makes of each behaviour of the process: its timer is the
    one [runCommand] arms for the argument [5000]. *)
Lemma safeRun_outcome (cmd : string) (opts : ExecOptions) :
  match exec cmd opts with
  | Hangs =>
      safeRun ExecOptions exec cmd opts =
      (["timeout after 5000s"], Some (5000000, Resolved None))
  | Completes d res =>
      if Z.leb d 5000000
      then safeRun ExecOptions exec cmd opts =
           (match err res with
            | None => []
            | Some code => [message (exec_error code (stderr res))]
            end,
            Some (d, Resolved (match err res with
                               | None => Some (stdout res)
                               | Some _ => None
                               end)))
      else safeRun ExecOptions exec cmd opts =
           (["timeout after 5000s"], Some (5000000, Resolved None))
  end.
Proof.
  assert (Hdelay : host_delay (5000 * 1000) = 5000000) by reflexivity.
  unfold safeRun.
  destruct (exec cmd opts) as [d res|] eqn:Hp.
  - destruct (Z.leb_spec d 5000000) as [Hle|Hgt].
    + rewrite (runCommand_exec_first _ _ cmd opts 5000 d res); [|lia|exact Hp|lia].
      destruct (err res); reflexivity.
    + rewrite (runCommand_timer_first _ _ cmd opts 5000); [reflexivity|lia|].
      right. exists d, res. split; [exact Hp|lia].
  - rewrite (runCommand_timer_first _ _ cmd opts 5000); [reflexivity|lia|].
    left. exact Hp.
Qed.


(** C6, as amended. Provided the host has not run the timer, if one is
    armed, when the process completes: for every command that exits with a
    non-zero code [runCommand] rejects with an error whose message,
    [exited with <code>\n<stderr>], includes that code and the captured
    standard error text; for a zero exit it resolves with the captured
    standard output text. *)
Theorem runCommand_exit_status (cmd : string) (opts : ExecOptions)
    (timeout : option Z) :
  completes_in_time timeout (exec cmd opts) ->
  runCommand_reports_exit exec cmd opts timeout /\
  runCommand_returns_stdout exec cmd opts timeout /\
  (forall d code out errtxt,
     exec cmd opts = Completes d (mk_exec_result (Some code) out errtxt) ->
     runCommand ExecOptions exec cmd opts timeout =
     Some (d, Rejected (mk_Error ("exited with " +:+ err_code_to_string code
                                  +:+ String newline_char errtxt)))).
Proof.
  intros Hin.
  assert (Hrun : forall d res, exec cmd opts = Completes d res ->
            runCommand ExecOptions exec cmd opts timeout =
            Some (d, match err res with
                     | Some code => Rejected (exec_error code (stderr res))
                     | None => Resolved (stdout res)
                     end)).
  { intros d res Hp. unfold completes_in_time in Hin. rewrite Hp in Hin.
    destruct Hin as [Hf|Hle].
    - rewrite (runCommand_unarmed _ _ _ _ _ Hf), Hp. reflexivity.
    - destruct timeout as [t|].
      + destruct (Z.eq_dec t 0) as [->|Hne].
        * rewrite (runCommand_unarmed _ _ _ _ (Some 0) eq_refl), Hp. reflexivity.
        * apply runCommand_exec_first; [exact Hne|exact Hp|].
          simpl in Hle. lia.
      + rewrite (runCommand_unarmed _ _ _ _ None eq_refl), Hp. reflexivity. }
  split; [|split].
  - intros d code out errtxt Hp Hcode.
    exists d, (exec_error (ExitCode code) errtxt). split; [|split].
    + rewrite (Hrun _ _ Hp). reflexivity.
    + apply (includes_middle "exited with " (pretty code) (String newline_char errtxt)).
    + unfold exec_error, message.
      apply includes_app_r, includes_app_r.
      apply (includes_app_r (String newline_char "") errtxt errtxt).
      apply includes_self.
  - intros d out errtxt Hp. rewrite (Hrun _ _ Hp). reflexivity.
  - intros d code out errtxt Hp. rewrite (Hrun _ _ Hp). reflexivity.
Qed.

(** C10. [runCommand] arms its timer with [timeout * 1000] milliseconds and
    [safeRun] passes [5000]: the timer of [safeRun] is due after 5,000,000
    ms. A process that completes within 5,000,000 ms (for instance after
    6,000 ms, more than five seconds) is not timed out; one that takes
    longer or never completes makes [safeRun] resolve with [null] at
    5,000,000 ms, after logging [timeout after 5000s]. *)
Theorem safeRun_effective_timeout (cmd : string) (opts : ExecOptions) :
  (forall t, t <> 0 -> timer (@arm_timer string (Some t)) = Some (t * 1000)) /\
  timer (@arm_timer string (Some 5000)) = Some 5000000 /\
  match exec cmd opts with
  | Hangs =>
      safeRun ExecOptions exec cmd opts =
      (["timeout after 5000s"], Some (5000000, Resolved None))
  | Completes d res =>
      if Z.leb d 5000000
      then snd (safeRun ExecOptions exec cmd opts) =
           Some (d, Resolved (match err res with
                              | None => Some (stdout res)
                              | Some _ => None
                              end))
      else safeRun ExecOptions exec cmd opts =
           (["timeout after 5000s"], Some (5000000, Resolved None))
  end.
Proof.
  split; [|split].
  - intros t Ht. rewrite (arm_timer_truthy t Ht). reflexivity.
  - reflexivity.
  - pose proof (safeRun_outcome cmd opts) as H.
    destruct (exec cmd opts) as [d res|]; [|exact H].
    destruct (Z.leb d 5000000); [|exact H].
    rewrite H. reflexivity.
Qed.

(** C2, as amended. [safeRun] never rejects: on any failure (a non-zero
    exit, an execution error, or its timer elapsing) it resolves with
    [null]. [getStdout] does not reject when the process ends with an error:
    whenever the process completes before the host runs an armed timer it
    resolves, with the captured output when there is some and with no value
    otherwise, whatever the exit status. But when the host runs the timer
    of a non-zero timeout before the process completes ([timeout * 1000] ms
    after the call, or 1 ms after it when that delay is outside the range
    of the host), [getStdout] rejects with the timeout error. *)
Theorem failures_swallowed (cmd : string) (opts : ExecOptions) :
  safeRun_swallows_failure exec cmd opts /\
  (forall t r, snd (safeRun ExecOptions exec cmd opts) = Some (t, r) ->
               exists v, r = Resolved v) /\
  (forall timeout d res,
     exec cmd opts = Completes d res ->
     completes_in_time timeout (exec cmd opts) ->
     getStdout ExecOptions exec cmd opts timeout =
     Some (d, Resolved (if String.eqb (stdout res) "" then None
                        else Some (stdout res)))) /\
  (forall t, t <> 0 ->
     (exec cmd opts = Hangs \/
      exists d res, exec cmd opts = Completes d res /\ host_delay (t * 1000) < d) ->
     getStdout ExecOptions exec cmd opts (Some t) =
     Some (host_delay (t * 1000),
           Rejected (mk_Error ("timeout after " +:+ pretty t +:+ "s")))) /\
  (forall t, 1 <= t * 1000 <= TIMEOUT_MAX ->
     (exec cmd opts = Hangs \/
      exists d res, exec cmd opts = Completes d res /\ t * 1000 < d) ->
     getStdout ExecOptions exec cmd opts (Some t) =
     Some (t * 1000,
           Rejected (mk_Error ("timeout after " +:+ pretty t +:+ "s")))).
Proof.
  split; [|split; [|split; [|split]]].
  - unfold safeRun_swallows_failure, run_fails.
    pose proof (safeRun_outcome cmd opts) as H. revert H.
    destruct (exec cmd opts) as [d res|].
    + destruct (Z.leb_spec d 5000000) as [Hle|Hgt]; intros H.
      * intros [Herr|[_ Hlt]].
        -- exists d. rewrite H. destruct (err res); [reflexivity|congruence].
        -- change (host_delay (default 0 (Some 5000) * 1000)) with 5000000 in Hlt. lia.
      * intros _. exists 5000000. rewrite H. reflexivity.
    + intros H _. exists 5000000. rewrite H. reflexivity.
  - intros t r. unfold safeRun.
    destruct (runCommand ExecOptions exec cmd opts (Some 5000)) as [[t' [out|e]]|];
      simpl; intros H; try discriminate; injection H as _ <-; eauto.
  - intros timeout d res Hp Hin. unfold completes_in_time in Hin. rewrite Hp in Hin.
    destruct Hin as [Hf|Hle].
    + rewrite (getStdout_unarmed _ _ _ _ _ Hf), Hp. reflexivity.
    + destruct timeout as [t|].
      * destruct (Z.eq_dec t 0) as [->|Hne].
        -- rewrite (getStdout_unarmed _ _ _ _ (Some 0) eq_refl), Hp. reflexivity.
        -- apply getStdout_exec_first; [exact Hne|exact Hp|].
           simpl in Hle. lia.
      * rewrite (getStdout_unarmed _ _ _ _ None eq_refl), Hp. reflexivity.
  - intros t Ht Hp. apply getStdout_timer_first; assumption.
  - intros t Hrange Hp.
    rewrite (getStdout_timer_first ExecOptions exec cmd opts t).
    + rewrite (host_delay_in_range (t * 1000) Hrange). reflexivity.
    + lia.
    + rewrite (host_delay_in_range (t * 1000) Hrange). exact Hp.
Qed.

End ProcessRunnerClaims.

(** *** Concrete runs *)


(** C6 as stated fails: a command that exits with code 2 after three
    seconds, run with a timeout of one second, is rejected with
    [timeout after 1s]; the message has neither the exit code nor the
    standard error text. *)
Lemma runCommand_exit_hidden_by_timeout :
  ~ runCommand_reports_exit slow_failure "sleep 3; printf boom >&2; exit 2" tt (Some 1%Z).
Proof.
  intros H.
  destruct (H 3000%Z 2%Z "" "boom" eq_refl ltac:(discriminate))
    as (t & e & Hrun & Hcode & _).
  vm_compute in Hrun. injection Hrun as _ <-. vm_compute in Hcode. discriminate.
Qed.

(** C6, as amended, at [runCommand("exit 1")] and at a run that exits with
    1 after 300 ms under a timeout of 2 seconds. *)
Lemma runCommand_exit_status_witness :
  runCommand unit exit_1 "exit 1" tt None
  = Some (5%Z, Rejected (mk_Error ("exited with 1" +:+ String newline_char "")))
  /\ runCommand unit short_failure "sleep 0.3; exit 1" tt (Some 2%Z)
     = Some (300%Z, Rejected (mk_Error ("exited with 1" +:+ String newline_char ""))).
Proof.
  split.
  - destruct (runCommand_exit_status unit exit_1 "exit 1" tt None) as (_ & _ & H).
    + left. reflexivity.
    + apply (H 5%Z (ExitCode 1) "" ""). reflexivity.
  - destruct (runCommand_exit_status unit short_failure "sleep 0.3; exit 1" tt
                (Some 2%Z)) as (_ & _ & H).
    + right. reflexivity.
    + apply (H 300%Z (ExitCode 1) "" ""). reflexivity.
Defined.

(** C2 as stated fails: [getStdout("sleep 10", {}, 1)] is rejected when its
    timer elapses. *)
Lemma getStdout_rejects_on_timeout :
  ~ getStdout_swallows_failure sleep_10 "sleep 10" tt (Some 1%Z).
Proof.
  intros H. destruct H as [t Ht].
  - right. split; reflexivity.
  - vm_compute in Ht. discriminate.
Qed.

(** C2, as amended, at concrete runs. *)
Lemma failures_swallowed_witness :
  (exists t, snd (safeRun unit exit_1 "exit 1" tt) = Some (t, Resolved None))
  /\ getStdout unit partial_output "printf partial; exit 1" tt None
     = Some (5%Z, Resolved (Some "partial"))
  /\ getStdout unit never_ends "cat" tt (Some 1%Z)
     = Some (1000%Z, Rejected (mk_Error "timeout after 1s"))
  /\ getStdout unit short_failure "sleep 0.3; exit 1" tt (Some 3000000%Z)
     = Some (1%Z, Rejected (mk_Error "timeout after 3000000s")).
Proof.
  destruct (failures_swallowed unit exit_1 "exit 1" tt) as (Hsafe & _).
  destruct (failures_swallowed unit partial_output "printf partial; exit 1" tt)
    as (_ & _ & Hout & _).
  destruct (failures_swallowed unit never_ends "cat" tt) as (_ & _ & _ & _ & Hrej).
  destruct (failures_swallowed unit short_failure "sleep 0.3; exit 1" tt)
    as (_ & _ & _ & Hhost & _).
  split; [|split; [|split]].
  - apply Hsafe. left. discriminate.
  - apply (Hout None 5%Z (mk_exec_result (Some (ExitCode 1)) "partial" "")).
    + reflexivity.
    + left. reflexivity.
  - apply (Hrej 1%Z); [split; discriminate|]. left. reflexivity.
  - apply (Hhost 3000000%Z); [discriminate|].
    right. exists 300%Z, (mk_exec_result (Some (ExitCode 1)) "" "").
    split; reflexivity.
Defined.

(** ** equals *)

(** *** equals: the first checks *)

Lemma equals_S fuel one other :
  equals (S fuel) one other =
  if strict_eq one other then Some true
  else if is_null one || is_undefined one || is_null other || is_undefined other
  then Some false
  else if negb (String.eqb (typeof one) (typeof other)) then Some false
  else if negb (String.eqb (typeof one) "object") then Some false
  else if negb (Bool.eqb (isArray one) (isArray other)) then Some false
  else if isArray one then
    if negb (Nat.eqb (array_length one) (array_length other)) then Some false
    else
      all_equal (equals fuel)
        ((fun i => (get_index one i, get_index other i))
           <$> seq 0 (array_length one))
  else
    match equals fuel (fresh_array 1%positive (sort_keys (keys_in one)))
                      (fresh_array 2%positive (sort_keys (keys_in other))) with
    | None => None
    | Some false => Some false
    | Some true =>
        all_equal (equals fuel)
          ((fun key => (get_prop one key, get_prop other key))
             <$> sort_keys (keys_in one))
    end.
Proof. reflexivity. Qed.

Lemma strict_eq_refl (a : value) : is_NaN a = false -> strict_eq a a = true.
Proof.
  destruct a as [| |b|n|s|l xs|l ps]; simpl; intros H; try reflexivity.
  - apply Bool.eqb_reflx.
  - destruct n; [apply Z.eqb_refl|apply Bool.eqb_reflx|discriminate].
  - apply String.eqb_refl.
  - apply Pos.eqb_refl.
  - apply Pos.eqb_refl.
Qed.

Lemma equals_one_nullish fuel a b :
  xorb (nullish a) (nullish b) = true -> equals (S fuel) a b = Some false.
Proof.
  rewrite equals_S.
  destruct a, b; simpl; intros H; try discriminate; reflexivity.
Qed.

(** *** equals on arrays of strings *)

Lemma equals_strings fuel (a b : string) :
  equals (S fuel) (VStr a) (VStr b) = Some (bool_decide (a = b)).
Proof.
  rewrite equals_S. simpl.
  destruct (String.eqb_spec a b) as [->|Hne].
  - rewrite bool_decide_eq_true_2; reflexivity.
  - rewrite bool_decide_eq_false_2; [reflexivity|assumption].
Qed.

Lemma index_pairs {A} (u : A) (xs ys : list A) :
  length xs = length ys ->
  (fun i => (default u (xs !! i), default u (ys !! i))) <$> seq 0 (length xs)
  = zip xs ys.
Proof.
  revert ys. induction xs as [|x xs IH]; intros [|y ys] Hlen; try discriminate.
  - reflexivity.
  - simpl. f_equal. rewrite <- fmap_S_seq, <- list_fmap_compose.
    apply IH. simpl in Hlen. lia.
Qed.

Lemma all_equal_strings fuel (ks1 ks2 : list string) :
  length ks1 = length ks2 ->
  all_equal (equals (S fuel)) (zip (VStr <$> ks1) (VStr <$> ks2))
  = Some (bool_decide (ks1 = ks2)).
Proof.
  revert ks2. induction ks1 as [|k ks1 IH]; intros [|k' ks2] Hlen; try discriminate.
  - reflexivity.
  - cbn [fmap list_fmap zip zip_with all_equal]. rewrite equals_strings.
    case_bool_decide as Hk.
    + subst k'. rewrite IH by (simpl in Hlen; lia).
      f_equal. apply bool_decide_ext. split; [intros ->; reflexivity|congruence].
    + rewrite bool_decide_eq_false_2; [reflexivity|congruence].
Qed.

Lemma equals_key_arrays fuel (l1 l2 : loc) (ks1 ks2 : list string) :
  l1 <> l2 ->
  equals (S (S fuel)) (fresh_array l1 ks1) (fresh_array l2 ks2)
  = Some (bool_decide (ks1 = ks2)).
Proof.
  intros Hl. rewrite equals_S. unfold fresh_array.
  cbn [strict_eq is_null is_undefined typeof isArray orb negb array_length get_index].
  rewrite (proj2 (Pos.eqb_neq l1 l2) Hl).
  cbn [String.eqb Ascii.eqb Bool.eqb negb].
  rewrite !length_fmap.
  destruct (Nat.eqb_spec (length ks1) (length ks2)) as [Hlen|Hlen]; cbn [negb].
  - rewrite <- (length_fmap VStr ks1).
    rewrite index_pairs by (rewrite !length_fmap; exact Hlen).
    apply all_equal_strings, Hlen.
  - rewrite bool_decide_eq_false_2; [reflexivity|congruence].
Qed.

(** *** Sorting the keys *)

Lemma sort_keys_sorted (ks : list string) : Sorted String.le (sort_keys ks).
Proof. apply Sorted_merge_sort; apply _. Qed.

Lemma sort_keys_perm (ks : list string) : sort_keys ks ≡ₚ ks.
Proof. apply merge_sort_Permutation. Qed.

Lemma sort_keys_order_irrelevant (ks ks' : list string) :
  ks ≡ₚ ks' -> sort_keys ks = sort_keys ks'.
Proof.
  intros Hp. apply (Sorted_unique String.le); try apply sort_keys_sorted.
  rewrite !sort_keys_perm. exact Hp.
Qed.

(** *** Reading properties *)

Lemma lookup_prop_absent (ps : list (string * value)) (k : string) :
  k ∉ fst <$> ps -> lookup_prop ps k = VUndefined.
Proof.
  induction ps as [|[k' v] ps IH]; [reflexivity|].
  cbn [fmap list_fmap fst lookup_prop]. intros Hn.
  apply not_elem_of_cons in Hn as [Hne Hn].
  destruct (String.eqb_spec k' k) as [E|_]; [congruence|]. apply IH, Hn.
Qed.

Lemma lookup_prop_present (ps : list (string * value)) (k : string) (v : value) :
  distinct_keys ps -> (k, v) ∈ ps -> lookup_prop ps k = v.
Proof.
  unfold distinct_keys.
  induction ps as [|[k' v'] ps IH]; intros Hnd Hin.
  - apply elem_of_nil in Hin. contradiction.
  - cbn [fmap list_fmap fst] in Hnd. apply NoDup_cons in Hnd as [Hfresh Hnd].
    cbn [lookup_prop]. apply elem_of_cons in Hin as [E|Hin].
    + injection E as <- <-. rewrite String.eqb_refl. reflexivity.
    + destruct (String.eqb_spec k' k) as [->|_]; [|apply IH; assumption].
      exfalso. apply Hfresh. apply (list_elem_of_fmap_2 fst _ _ Hin).
Qed.

Lemma lookup_prop_order_irrelevant (ps ps' : list (string * value)) (k : string) :
  distinct_keys ps -> ps ≡ₚ ps' -> lookup_prop ps k = lookup_prop ps' k.
Proof.
  intros Hnd Hp.
  assert (Hnd' : distinct_keys ps').
  { unfold distinct_keys in *. rewrite <- Hp. exact Hnd. }
  destruct (decide (k ∈ fst <$> ps)) as [Hin|Hout].
  - apply list_elem_of_fmap in Hin as ([k' v] & -> & Hin). simpl.
    rewrite (lookup_prop_present ps k' v Hnd Hin).
    symmetry. apply lookup_prop_present; [exact Hnd'|]. rewrite <- Hp. exact Hin.
  - rewrite (lookup_prop_absent ps k Hout).
    symmetry. apply lookup_prop_absent. rewrite <- Hp. exact Hout.
Qed.

(** *** equals on two mappings *)

Lemma equals_objects fuel (l1 l2 : loc) (ps1 ps2 : list (string * value)) :
  l1 <> l2 ->
  equals (S (S (S fuel))) (VObj l1 ps1) (VObj l2 ps2) =
  if bool_decide (sort_keys (fst <$> ps1) = sort_keys (fst <$> ps2))
  then all_equal (equals (S (S fuel)))
         ((fun key => (lookup_prop ps1 key, lookup_prop ps2 key))
            <$> sort_keys (fst <$> ps1))
  else Some false.
Proof.
  intros Hl. rewrite equals_S.
  cbn [strict_eq is_null is_undefined typeof isArray orb negb keys_in get_prop].
  rewrite (proj2 (Pos.eqb_neq l1 l2) Hl).
  cbn [String.eqb Ascii.eqb Bool.eqb negb].
  rewrite equals_key_arrays by discriminate.
  case_bool_decide; reflexivity.
Qed.

Lemma equals_objects_order_irrelevant fuel (l1 l2 l1' l2' : loc)
    (ps1 ps2 ps1' ps2' : list (string * value)) :
  l1 <> l2 -> l1' <> l2' ->
  distinct_keys ps1 -> distinct_keys ps2 ->
  ps1 ≡ₚ ps1' -> ps2 ≡ₚ ps2' ->
  equals fuel (VObj l1 ps1) (VObj l2 ps2) = equals fuel (VObj l1' ps1') (VObj l2' ps2').
Proof.
  intros Hl Hl' Hd1 Hd2 Hp1 Hp2.
  destruct fuel as [|fuel]; [reflexivity|].
  rewrite !equals_S.
  cbn [strict_eq is_null is_undefined typeof isArray orb negb keys_in get_prop].
  rewrite (proj2 (Pos.eqb_neq l1 l2) Hl), (proj2 (Pos.eqb_neq l1' l2') Hl').
  rewrite (sort_keys_order_irrelevant (fst <$> ps1) (fst <$> ps1'))
    by (apply fmap_Permutation, Hp1).
  rewrite (sort_keys_order_irrelevant (fst <$> ps2) (fst <$> ps2'))
    by (apply fmap_Permutation, Hp2).
  rewrite (list_fmap_ext
             (fun key => (lookup_prop ps1 key, lookup_prop ps2 key))
             (fun key => (lookup_prop ps1' key, lookup_prop ps2' key))
             (sort_keys (fst <$> ps1'))); [reflexivity|].
  intros i key _.
  rewrite (lookup_prop_order_irrelevant ps1 ps1' key Hd1 Hp1).
  rewrite (lookup_prop_order_irrelevant ps2 ps2' key Hd2 Hp2).
  reflexivity.
Qed.

(** *** Enough fuel gives an answer, and more fuel gives the same answer *)

Lemma all_equal_is_Some (eq : value -> value -> option bool) pairs :
  (forall x y, (x, y) ∈ pairs -> is_Some (eq x y)) ->
  is_Some (all_equal eq pairs).
Proof.
  induction pairs as [|[x y] pairs IH]; intros H; [eexists; reflexivity|].
  cbn [all_equal].
  destruct (H x y) as [[|] ->]; [apply elem_of_cons; left; reflexivity| |eexists; reflexivity].
  apply IH. intros x' y' Hin. apply H. apply elem_of_cons. right. exact Hin.
Qed.

Lemma all_equal_mono (eq1 eq2 : value -> value -> option bool) pairs r :
  (forall x y r, eq1 x y = Some r -> eq2 x y = Some r) ->
  all_equal eq1 pairs = Some r -> all_equal eq2 pairs = Some r.
Proof.
  intros Hm. induction pairs as [|[x y] pairs IH]; [exact id|].
  cbn [all_equal]. destruct (eq1 x y) as [[|]|] eqn:E; try discriminate.
  - rewrite (Hm _ _ _ E). exact IH.
  - rewrite (Hm _ _ _ E). exact id.
Qed.

Lemma fuel_for_elem (x : value) (xs : list value) :
  x ∈ xs -> fuel_for x <= foldr (fun x m => Nat.max (fuel_for x) m) 0 xs.
Proof.
  induction xs as [|y xs IH]; intros Hin.
  - apply elem_of_nil in Hin. contradiction.
  - cbn [foldr]. apply elem_of_cons in Hin as [->|Hin]; [lia|].
    specialize (IH Hin). lia.
Qed.

Lemma fuel_for_lookup_prop (ps : list (string * value)) (k : string) :
  fuel_for (lookup_prop ps k) <= foldr (fun p m => Nat.max (fuel_for (snd p)) m) 2 ps.
Proof.
  induction ps as [|[k' v] ps IH]; [simpl; lia|].
  cbn [foldr lookup_prop snd]. destruct (String.eqb k' k); lia.
Qed.

Lemma fuel_for_props_ge (ps : list (string * value)) :
  2 <= foldr (fun p m => Nat.max (fuel_for (snd p)) m) 2 ps.
Proof. induction ps as [|p ps IH]; cbn [foldr]; lia. Qed.

Lemma equals_terminates (fuel : nat) (one other : value) :
  fuel_for one <= fuel -> is_Some (equals fuel one other).
Proof.
  revert one other. induction fuel as [|fuel IH]; intros one other Hfuel.
  - destruct one; simpl in Hfuel; lia.
  - rewrite equals_S.
    destruct (strict_eq one other); [eexists; reflexivity|].
    destruct (is_null one || is_undefined one || is_null other || is_undefined other)
      eqn:Hnull; [eexists; reflexivity|].
    destruct (negb (String.eqb (typeof one) (typeof other))); [eexists; reflexivity|].
    destruct (negb (String.eqb (typeof one) "object")) eqn:Hobj; [eexists; reflexivity|].
    destruct (negb (Bool.eqb (isArray one) (isArray other))); [eexists; reflexivity|].
    destruct one as [| |b|n|s|l xs|l ps]; try discriminate.
    + cbn [isArray array_length get_index].
      destruct (negb (Nat.eqb (length xs) (array_length other))); [eexists; reflexivity|].
      apply all_equal_is_Some. intros x y Hin.
      apply list_elem_of_fmap in Hin as (i & E & Hi). injection E as -> ->.
      apply IH. apply elem_of_seq in Hi.
      destruct (lookup_lt_is_Some_2 xs i) as [x Hx]; [lia|]. rewrite Hx. simpl.
      cbn [fuel_for] in Hfuel.
      pose proof (fuel_for_elem x xs (list_elem_of_lookup_2 _ _ _ Hx)). lia.
    + cbn [isArray keys_in get_prop]. cbn [fuel_for] in Hfuel.
      pose proof (fuel_for_props_ge ps) as Hge.
      destruct fuel as [|[|fuel]]; [lia|lia|].
      rewrite equals_key_arrays by discriminate.
      case_bool_decide; [|eexists; reflexivity].
      apply all_equal_is_Some. intros x y Hin.
      apply list_elem_of_fmap in Hin as (k & E & _). injection E as -> ->.
      apply IH. pose proof (fuel_for_lookup_prop ps k). lia.
Qed.

Lemma equals_fuel_mono (fuel fuel' : nat) (one other : value) (r : bool) :
  fuel <= fuel' -> equals fuel one other = Some r -> equals fuel' one other = Some r.
Proof.
  revert fuel' one other r. induction fuel as [|fuel IH]; intros fuel' one other r Hle.
  - discriminate.
  - destruct fuel' as [|fuel']; [lia|].
    assert (Hrec : forall x y r, equals fuel x y = Some r -> equals fuel' x y = Some r).
    { intros x y r'. apply IH. lia. }
    rewrite !equals_S.
    repeat match goal with
           | |- context [if ?c then _ else _] => destruct c; [exact id|]
           end.
    destruct (isArray one).
    + destruct (negb (Nat.eqb (array_length one) (array_length other))); [exact id|].
      apply all_equal_mono, Hrec.
    + destruct (equals fuel (fresh_array 1%positive (sort_keys (keys_in one)))
                            (fresh_array 2%positive (sort_keys (keys_in other))))
        as [[|]|] eqn:E; try discriminate.
      * rewrite (Hrec _ _ _ E). apply all_equal_mono, Hrec.
      * rewrite (Hrec _ _ _ E). exact id.
Qed.

Lemma equals_returns_unique (one other : value) (r r' : bool) :
  equals_returns one other r -> equals_returns one other r' -> r = r'.
Proof.
  intros [n Hn] [m Hm].
  apply (equals_fuel_mono n (Nat.max n m)) in Hn; [|lia].
  apply (equals_fuel_mono m (Nat.max n m)) in Hm; [|lia].
  congruence.
Qed.

(** *** Copies compare equal *)

Lemma all_equal_true (eq : value -> value -> option bool) pairs :
  (forall x y, (x, y) ∈ pairs -> eq x y = Some true) ->
  all_equal eq pairs = Some true.
Proof.
  induction pairs as [|[x y] pairs IH]; intros H; [reflexivity|].
  cbn [all_equal]. rewrite (H x y) by (apply elem_of_cons; left; reflexivity).
  apply IH. intros x' y' Hin. apply H. apply elem_of_cons. right. exact Hin.
Qed.

Lemma all_equal_zip (eq : value -> value -> option bool)
    (R : value -> value -> Prop) (xs ys : list value) :
  Forall2 R xs ys ->
  (forall x y, x ∈ xs -> R x y -> eq x y = Some true) ->
  all_equal eq (zip xs ys) = Some true.
Proof.
  induction 1 as [|x y xs ys Hxy _ IH]; intros H; [reflexivity|].
  cbn [zip zip_with all_equal].
  rewrite (H x y) by (try (apply elem_of_cons; left; reflexivity); exact Hxy).
  apply IH. intros x' y' Hin. apply H. apply elem_of_cons. right. exact Hin.
Qed.

Lemma copy_of_keys (ps qs : list (string * value)) :
  Forall2 (fun p q => fst p = fst q /\ copy_of (snd p) (snd q)) ps qs ->
  fst <$> ps = fst <$> qs.
Proof.
  induction 1 as [|p q ps qs [Hk _] _ IH]; [reflexivity|].
  cbn [fmap list_fmap]. rewrite Hk. f_equal. exact IH.
Qed.

Lemma copy_of_lookup_prop (ps qs : list (string * value)) (k : string) :
  Forall2 (fun p q => fst p = fst q /\ copy_of (snd p) (snd q)) ps qs ->
  copy_of (lookup_prop ps k) (lookup_prop qs k).
Proof.
  induction 1 as [|[k1 v1] [k2 v2] ps qs [Hk Hv] _ IH].
  - apply copy_prim; [left; discriminate|reflexivity].
  - simpl in Hk, Hv. subst k2. cbn [lookup_prop].
    destruct (String.eqb k1 k); assumption.
Qed.

(** [equals] answers [true] on a value and any copy of it. *)
Lemma equals_copy (fuel : nat) (a b : value) :
  copy_of a b -> fuel_for a <= fuel -> equals fuel a b = Some true.
Proof.
  revert a b. induction fuel as [|fuel IH]; intros a b Hcopy Hfuel.
  - destruct a; simpl in Hfuel; lia.
  - rewrite equals_S. destruct Hcopy as [a Hprim Hrefl|l l' xs ys Hall|l l' ps qs Hall].
    + rewrite Hrefl. reflexivity.
    + cbn [strict_eq is_null is_undefined typeof isArray orb negb array_length get_index].
      destruct (Pos.eqb l l'); [reflexivity|].
      cbn [String.eqb Ascii.eqb Bool.eqb negb].
      rewrite <- (Forall2_length _ _ _ Hall), Nat.eqb_refl. cbn [negb].
      rewrite index_pairs by (apply (Forall2_length _ _ _ Hall)).
      cbn [fuel_for] in Hfuel.
      apply (all_equal_zip _ copy_of); [exact Hall|].
      intros x y Hin Hxy. apply IH; [exact Hxy|].
      pose proof (fuel_for_elem x xs Hin). lia.
    + cbn [strict_eq is_null is_undefined typeof isArray orb negb keys_in get_prop].
      destruct (Pos.eqb l l'); [reflexivity|].
      cbn [String.eqb Ascii.eqb Bool.eqb negb].
      cbn [fuel_for] in Hfuel. pose proof (fuel_for_props_ge ps) as Hge.
      destruct fuel as [|[|fuel]]; [lia|lia|].
      rewrite equals_key_arrays by discriminate.
      rewrite (copy_of_keys ps qs Hall), bool_decide_eq_true_2 by reflexivity.
      apply all_equal_true. intros x y Hin.
      apply list_elem_of_fmap in Hin as (k & E & _). injection E as -> ->.
      apply IH; [apply copy_of_lookup_prop, Hall|].
      pose proof (fuel_for_lookup_prop ps k). lia.
Qed.

(** *** What two mappings compare to *)

Lemma equals_at_fuel (fuel : nat) (a b : value) (r : bool) :
  equals_returns a b r -> fuel_for a <= fuel -> equals fuel a b = Some r.
Proof.
  intros Hr Hfuel. destruct (equals_terminates fuel a b Hfuel) as [r' Hr'].
  rewrite Hr'. f_equal.
  apply (equals_returns_unique a b); [exists fuel; exact Hr'|exact Hr].
Qed.

Lemma all_equal_false (eq : value -> value -> option bool) pairs (x y : value) :
  (forall x' y', (x', y') ∈ pairs -> is_Some (eq x' y')) ->
  (x, y) ∈ pairs -> eq x y = Some false -> all_equal eq pairs = Some false.
Proof.
  induction pairs as [|[x' y'] pairs IH]; intros Hall Hin Hf.
  - apply elem_of_nil in Hin. contradiction.
  - cbn [all_equal].
    destruct (Hall x' y') as [[|] E]; [apply elem_of_cons; left; reflexivity| |].
    + rewrite E. apply elem_of_cons in Hin as [E'|Hin].
      * injection E' as -> ->. congruence.
      * apply IH; [|exact Hin|exact Hf].
        intros x'' y'' Hin'. apply Hall. apply elem_of_cons. right. exact Hin'.
    + rewrite E. reflexivity.
Qed.

Lemma all_equal_true_inv (eq : value -> value -> option bool) pairs (x y : value) :
  all_equal eq pairs = Some true -> (x, y) ∈ pairs -> eq x y = Some true.
Proof.
  induction pairs as [|[x' y'] pairs IH]; intros H Hin.
  - apply elem_of_nil in Hin. contradiction.
  - cbn [all_equal] in H. destruct (eq x' y') as [[|]|] eqn:E; try discriminate.
    apply elem_of_cons in Hin as [E'|Hin].
    + injection E' as -> ->. exact E.
    + apply IH; assumption.
Qed.

Lemma sort_keys_eq_perm (ks ks' : list string) :
  sort_keys ks = sort_keys ks' <-> ks ≡ₚ ks'.
Proof.
  split; [|apply sort_keys_order_irrelevant].
  intros E. rewrite <- (sort_keys_perm ks), E. apply sort_keys_perm.
Qed.

Lemma elem_of_sort_keys (k : string) (ks : list string) :
  k ∈ sort_keys ks <-> k ∈ ks.
Proof. rewrite sort_keys_perm. reflexivity. Qed.

(** What [equals] returns on two mappings, at a depth that is enough. *)
Lemma equals_objects_enough (l1 l2 : loc) (ps1 ps2 : list (string * value))
    (r : bool) :
  l1 <> l2 ->
  equals_returns (VObj l1 ps1) (VObj l2 ps2) r <->
  (if bool_decide (sort_keys (fst <$> ps1) = sort_keys (fst <$> ps2))
   then all_equal (equals (fuel_for_values ps1))
          ((fun key => (lookup_prop ps1 key, lookup_prop ps2 key))
             <$> sort_keys (fst <$> ps1))
   else Some false) = Some r.
Proof.
  intros Hl. pose proof (fuel_for_props_ge ps1) as Hge.
  assert (Hfuel : fuel_for (VObj l1 ps1) = S (fuel_for_values ps1)) by reflexivity.
  fold (fuel_for_values ps1) in Hge.
  destruct (fuel_for_values ps1) as [|[|f]]; [lia|lia|].
  rewrite <- (equals_objects f l1 l2 ps1 ps2 Hl). split.
  - intros Hr. apply equals_at_fuel; [exact Hr|]. rewrite Hfuel. lia.
  - intros H. exists (S (S (S f))). exact H.
Qed.

Lemma equals_values_is_Some (ps1 ps2 : list (string * value)) (x y : value) :
  (x, y) ∈ (fun key => (lookup_prop ps1 key, lookup_prop ps2 key))
             <$> sort_keys (fst <$> ps1) ->
  is_Some (equals (fuel_for_values ps1) x y).
Proof.
  intros Hin. apply list_elem_of_fmap in Hin as (k & E & _). injection E as -> ->.
  apply equals_terminates, fuel_for_lookup_prop.
Qed.

(** Two mappings with different sets of keys compare unequal. *)
Lemma equals_objects_keys_differ (l1 l2 : loc) (ps1 ps2 : list (string * value))
    (k : string) :
  l1 <> l2 ->
  (k ∈ fst <$> ps1 /\ k ∉ fst <$> ps2) \/ ((k ∉ fst <$> ps1) /\ k ∈ fst <$> ps2) ->
  equals_returns (VObj l1 ps1) (VObj l2 ps2) false.
Proof.
  intros Hl Hk. apply equals_objects_enough; [exact Hl|].
  case_bool_decide as Hs; [|reflexivity]. exfalso.
  apply sort_keys_eq_perm in Hs.
  destruct Hk as [[Hin Hout]|[Hout Hin]]; apply Hout.
  - rewrite <- Hs. exact Hin.
  - rewrite Hs. exact Hin.
Qed.

(** Two mappings whose values at one key compare unequal compare unequal. *)
Lemma equals_objects_value_differs (l1 l2 : loc) (ps1 ps2 : list (string * value))
    (k : string) (v1 v2 : value) :
  l1 <> l2 -> distinct_keys ps1 -> distinct_keys ps2 ->
  (k, v1) ∈ ps1 -> (k, v2) ∈ ps2 -> equals_returns v1 v2 false ->
  equals_returns (VObj l1 ps1) (VObj l2 ps2) false.
Proof.
  intros Hl Hd1 Hd2 Hin1 Hin2 Hv. apply equals_objects_enough; [exact Hl|].
  case_bool_decide as Hs; [|reflexivity].
  apply (all_equal_false _ _ v1 v2).
  - intros x y. apply equals_values_is_Some.
  - apply list_elem_of_fmap. exists k. split.
    + rewrite (lookup_prop_present ps1 k v1 Hd1 Hin1).
      rewrite (lookup_prop_present ps2 k v2 Hd2 Hin2). reflexivity.
    + apply elem_of_sort_keys. apply (list_elem_of_fmap_2 fst _ _ Hin1).
  - apply equals_at_fuel; [exact Hv|].
    rewrite <- (lookup_prop_present ps1 k v1 Hd1 Hin1). apply fuel_for_lookup_prop.
Qed.

(** Two mappings compare equal exactly when they have the same keys and
    the values at each key compare equal. *)
Lemma equals_objects_true (l1 l2 : loc) (ps1 ps2 : list (string * value)) :
  l1 <> l2 -> distinct_keys ps1 -> distinct_keys ps2 ->
  equals_returns (VObj l1 ps1) (VObj l2 ps2) true <->
  fst <$> ps1 ≡ₚ fst <$> ps2
  /\ (forall k v1 v2, (k, v1) ∈ ps1 -> (k, v2) ∈ ps2 -> equals_returns v1 v2 true).
Proof.
  intros Hl Hd1 Hd2. rewrite (equals_objects_enough l1 l2 ps1 ps2 true Hl). split.
  - case_bool_decide as Hs; [|discriminate]. intros Hall. split.
    + apply sort_keys_eq_perm, Hs.
    + intros k v1 v2 Hin1 Hin2. exists (fuel_for_values ps1).
      apply (all_equal_true_inv _ _ v1 v2 Hall).
      apply list_elem_of_fmap. exists k. split.
      * rewrite (lookup_prop_present ps1 k v1 Hd1 Hin1).
        rewrite (lookup_prop_present ps2 k v2 Hd2 Hin2). reflexivity.
      * apply elem_of_sort_keys. apply (list_elem_of_fmap_2 fst _ _ Hin1).
  - intros [Hp Hvals].
    rewrite bool_decide_eq_true_2 by (apply sort_keys_eq_perm, Hp).
    apply all_equal_true. intros x y Hin.
    apply list_elem_of_fmap in Hin as (k & E & Hk). injection E as -> ->.
    apply (proj1 (elem_of_sort_keys _ _)) in Hk.
    assert (Hk2 : k ∈ fst <$> ps2) by (rewrite <- Hp; exact Hk).
    apply list_elem_of_fmap in Hk as ([k1 v1] & -> & Hin1).
    apply list_elem_of_fmap in Hk2 as ([k2 v2] & E & Hin2).
    cbn [fst] in E |- *. subst k2.
    rewrite (lookup_prop_present ps1 k1 v1 Hd1 Hin1).
    rewrite (lookup_prop_present ps2 k1 v2 Hd2 Hin2).
    apply equals_at_fuel; [apply (Hvals k1 v1 v2 Hin1 Hin2)|].
    rewrite <- (lookup_prop_present ps1 k1 v1 Hd1 Hin1). apply fuel_for_lookup_prop.
Qed.

(** *** The claims about equals *)

(** C3 as stated fails: [equals(NaN, NaN)] does not return [true]. *)
Lemma equals_NaN_not_reflexive :
  ~ equals_returns (VNum NNaN) (VNum NNaN) true.
Proof. intros [[|fuel] H]; discriminate. Qed.

(** C3, as amended. For every value [a] other than [NaN], nested arrays and
    mappings included, [equals(a, a)] returns [true]: the identity check
    that opens [equals] succeeds. *)
Theorem equals_reflexive (a : value) :
  is_NaN a = false ->
  (forall fuel, equals (S fuel) a a = Some true) /\ equals_returns a a true.
Proof.
  intros Ha.
  assert (H : forall fuel, equals (S fuel) a a = Some true).
  { intros fuel. rewrite equals_S, (strict_eq_refl a Ha). reflexivity. }
  split; [exact H|]. exists 1. apply H.
Qed.

(** C3, as amended, at a mapping that holds nested arrays and a mapping. *)
Lemma equals_reflexive_witness :
  equals_returns
    (VObj 7%positive
       [("xs", VArr 8%positive [VNum (NInt 1); VArr 9%positive [VNum NNaN; VNull]]);
        ("m", VObj 10%positive [("k", VStr "v")])])
    (VObj 7%positive
       [("xs", VArr 8%positive [VNum (NInt 1); VArr 9%positive [VNum NNaN; VNull]]);
        ("m", VObj 10%positive [("k", VStr "v")])])
    true.
Proof. apply equals_reflexive. reflexivity. Defined.

(** C7. For two mappings (two different objects), [equals] answers [false]
    unless the sorted lists of their keys are the same list, and otherwise
    answers what the comparisons of the values at each key of the sorted
    list answer, in that order. The call returns. The order in which the
    properties of either mapping are enumerated does not change what it
    returns, and [equals({a:1,b:2}, {b:2,a:1})] returns [true]. What this
    comes to: two mappings compare equal exactly when they have the same
    keys and the values at each key compare equal; a key that only one of
    them has makes the answer [false], and so does a key at which the two
    values compare unequal, as in [equals({a:1}, {b:1})],
    [equals({a:1}, {a:2})] and [equals({a:1}, {a:1,b:2})]. *)
Theorem equals_mappings (l1 l2 : loc) (ps1 ps2 : list (string * value)) :
  l1 <> l2 ->
  (forall fuel,
     equals (S (S (S fuel))) (VObj l1 ps1) (VObj l2 ps2) =
     if bool_decide (sort_keys (fst <$> ps1) = sort_keys (fst <$> ps2))
     then all_equal (equals (S (S fuel)))
            ((fun key => (lookup_prop ps1 key, lookup_prop ps2 key))
               <$> sort_keys (fst <$> ps1))
     else Some false)
  /\ (exists r, equals_returns (VObj l1 ps1) (VObj l2 ps2) r)
  /\ (forall (l1' l2' : loc) (ps1' ps2' : list (string * value)) (r : bool),
        l1' <> l2' -> distinct_keys ps1 -> distinct_keys ps2 ->
        ps1 ≡ₚ ps1' -> ps2 ≡ₚ ps2' ->
        equals_returns (VObj l1 ps1) (VObj l2 ps2) r <->
        equals_returns (VObj l1' ps1') (VObj l2' ps2') r)
  /\ equals_returns
       (VObj 1%positive [("a", VNum (NInt 1)); ("b", VNum (NInt 2))])
       (VObj 2%positive [("b", VNum (NInt 2)); ("a", VNum (NInt 1))]) true
  /\ (distinct_keys ps1 -> distinct_keys ps2 ->
      (equals_returns (VObj l1 ps1) (VObj l2 ps2) true <->
       fst <$> ps1 ≡ₚ fst <$> ps2
       /\ (forall k v1 v2,
             (k, v1) ∈ ps1 -> (k, v2) ∈ ps2 -> equals_returns v1 v2 true)))
  /\ (forall k,
        (k ∈ fst <$> ps1 /\ k ∉ fst <$> ps2)
        \/ ((k ∉ fst <$> ps1) /\ k ∈ fst <$> ps2) ->
        equals_returns (VObj l1 ps1) (VObj l2 ps2) false)
  /\ (forall k v1 v2,
        distinct_keys ps1 -> distinct_keys ps2 ->
        (k, v1) ∈ ps1 -> (k, v2) ∈ ps2 -> equals_returns v1 v2 false ->
        equals_returns (VObj l1 ps1) (VObj l2 ps2) false)
  /\ equals_returns (VObj 1%positive [("a", VNum (NInt 1))])
                    (VObj 2%positive [("b", VNum (NInt 1))]) false
  /\ equals_returns (VObj 1%positive [("a", VNum (NInt 1))])
                    (VObj 2%positive [("a", VNum (NInt 2))]) false
  /\ equals_returns (VObj 1%positive [("a", VNum (NInt 1))])
                    (VObj 2%positive [("a", VNum (NInt 1)); ("b", VNum (NInt 2))])
                    false.
Proof.
  intros Hl. split; [|split; [|split; [|split; [|split; [|split; [|split]]]]]].
  - intros fuel. apply equals_objects, Hl.
  - destruct (equals_terminates (fuel_for (VObj l1 ps1)) (VObj l1 ps1) (VObj l2 ps2))
      as [r Hr]; [lia|].
    exists r, (fuel_for (VObj l1 ps1)). exact Hr.
  - intros l1' l2' ps1' ps2' r Hl' Hd1 Hd2 Hp1 Hp2.
    split; intros [fuel H]; exists fuel.
    + rewrite <- H. symmetry. apply equals_objects_order_irrelevant; assumption.
    + rewrite <- H. apply equals_objects_order_irrelevant; assumption.
  - exists 3. vm_compute. reflexivity.
  - intros Hd1 Hd2. apply equals_objects_true; assumption.
  - intros k Hk. apply (equals_objects_keys_differ l1 l2 ps1 ps2 k Hl Hk).
  - intros k v1 v2 Hd1 Hd2 Hin1 Hin2 Hv.
    apply (equals_objects_value_differs l1 l2 ps1 ps2 k v1 v2); assumption.
  - split; [|split]; exists 3; vm_compute; reflexivity.
Qed.

(** C7 at [{a:1,b:2}] and [{b:2,a:1}]: the comparison goes through the keys
    [a] and [b] in this order, and enumerating the second mapping in the
    other order gives the same answer. At [{a:1,b:2}] and [{a:1,c:2}] the
    key [b] that only the first has makes the answer [false], and at
    [{a:1,b:2}] and [{b:3,a:1}] the values at [b] do. *)
Lemma equals_mappings_witness :
  equals 3 (VObj 1%positive [("a", VNum (NInt 1)); ("b", VNum (NInt 2))])
           (VObj 2%positive [("b", VNum (NInt 2)); ("a", VNum (NInt 1))])
  = all_equal (equals 2)
      [(VNum (NInt 1), VNum (NInt 1)); (VNum (NInt 2), VNum (NInt 2))]
  /\ (equals_returns
        (VObj 1%positive [("a", VNum (NInt 1)); ("b", VNum (NInt 2))])
        (VObj 2%positive [("b", VNum (NInt 2)); ("a", VNum (NInt 1))]) true <->
      equals_returns
        (VObj 1%positive [("a", VNum (NInt 1)); ("b", VNum (NInt 2))])
        (VObj 2%positive [("a", VNum (NInt 1)); ("b", VNum (NInt 2))]) true)
  /\ equals_returns
       (VObj 1%positive [("a", VNum (NInt 1)); ("b", VNum (NInt 2))])
       (VObj 2%positive [("a", VNum (NInt 1)); ("c", VNum (NInt 2))]) false
  /\ equals_returns
       (VObj 1%positive [("a", VNum (NInt 1)); ("b", VNum (NInt 2))])
       (VObj 2%positive [("b", VNum (NInt 3)); ("a", VNum (NInt 1))]) false.
Proof.
  assert (Hab : forall v1 v2 : value, distinct_keys [("a", v1); ("b", v2)]).
  { intros v1 v2. apply NoDup_cons_2; [|apply NoDup_singleton].
    rewrite list_elem_of_singleton. discriminate. }
  assert (Hba : forall v1 v2 : value, distinct_keys [("b", v1); ("a", v2)]).
  { intros v1 v2. apply NoDup_cons_2; [|apply NoDup_singleton].
    rewrite list_elem_of_singleton. discriminate. }
  split; [|split; [|split]].
  - destruct (equals_mappings 1%positive 2%positive
                [("a", VNum (NInt 1)); ("b", VNum (NInt 2))]
                [("b", VNum (NInt 2)); ("a", VNum (NInt 1))])
      as (Hsteps & _); [discriminate|].
    rewrite Hsteps. vm_compute. reflexivity.
  - destruct (equals_mappings 1%positive 2%positive
                [("a", VNum (NInt 1)); ("b", VNum (NInt 2))]
                [("b", VNum (NInt 2)); ("a", VNum (NInt 1))])
      as (_ & _ & Horder & _); [discriminate|].
    apply Horder.
    + discriminate.
    + apply Hab.
    + apply Hba.
    + reflexivity.
    + apply Permutation_swap.
  - destruct (equals_mappings 1%positive 2%positive
                [("a", VNum (NInt 1)); ("b", VNum (NInt 2))]
                [("a", VNum (NInt 1)); ("c", VNum (NInt 2))])
      as (_ & _ & _ & _ & _ & Hkeys & _); [discriminate|].
    apply (Hkeys "b"). left. split.
    + apply elem_of_cons. right. apply elem_of_cons. left. reflexivity.
    + intros Hin. apply elem_of_cons in Hin as [E|Hin]; [discriminate E|].
      apply list_elem_of_singleton in Hin. discriminate Hin.
  - destruct (equals_mappings 1%positive 2%positive
                [("a", VNum (NInt 1)); ("b", VNum (NInt 2))]
                [("b", VNum (NInt 3)); ("a", VNum (NInt 1))])
      as (_ & _ & _ & _ & _ & _ & Hvalues & _); [discriminate|].
    apply (Hvalues "b" (VNum (NInt 2)) (VNum (NInt 3))).
    + apply Hab.
    + apply Hba.
    + apply elem_of_cons. right. apply elem_of_cons. left. reflexivity.
    + apply elem_of_cons. left. reflexivity.
    + exists 1. reflexivity.
Defined.

(** C8. When exactly one of the two values is [null] or [undefined],
    [equals] returns [false]; and [equals(null, undefined)] returns
    [false]. *)
Theorem equals_nullish (a b : value) (fuel : nat) :
  (xorb (nullish a) (nullish b) = true -> equals (S fuel) a b = Some false)
  /\ equals (S fuel) VNull VUndefined = Some false.
Proof.
  split.
  - apply equals_one_nullish.
  - reflexivity.
Qed.

(** C8 at [null] against an empty array, and at [null] against
    [undefined]. *)
Lemma equals_nullish_witness :
  equals 1 VNull (VArr 3%positive []) = Some false
  /\ equals 1 (VStr "") VUndefined = Some false
  /\ equals 1 VNull VUndefined = Some false.
Proof.
  destruct (equals_nullish VNull (VArr 3%positive []) 0) as [H1 H2].
  destruct (equals_nullish (VStr "") VUndefined 0) as [H3 _].
  split; [apply H1; reflexivity|split; [apply H3; reflexivity|exact H2]].
Defined.

(** ** getUrl *)

(** *** getUrl: rewriting the remote *)

Lemma string_length_app (a b : string) :
  String.length (a +:+ b) = String.length a + String.length b.
Proof. induction a as [|c a IH]; [reflexivity|]. rewrite app_cons. simpl. lia. Qed.

Lemma remove_suffix_app (suf a : string) :
  suf <> "" -> remove_suffix suf (a +:+ suf) = a.
Proof.
  intros Hs. induction a as [|c a IH].
  - destruct suf as [|c r]; [congruence|].
    change ("" +:+ String c r) with (String c r).
    cbn [remove_suffix]. rewrite String.eqb_refl. reflexivity.
  - rewrite app_cons. cbn [remove_suffix].
    destruct (String.eqb_spec (String c (a +:+ suf)) suf) as [E|_].
    + apply (f_equal String.length) in E. simpl in E.
      rewrite string_length_app in E. lia.
    + rewrite IH. reflexivity.
Qed.

Lemma split_no_colon (s : string) :
  includes s ":" = false -> split_on ":" s = [s].
Proof.
  induction s as [|c s IH]; [reflexivity|].
  cbn [includes startsWith split_on]. rewrite andb_true_r.
  intros H. apply orb_false_elim in H as [Hc Hs].
  rewrite Ascii.eqb_sym, Hc, (IH Hs). reflexivity.
Qed.

Lemma split_at_colon (host rest : string) :
  includes host ":" = false ->
  split_on ":" (host +:+ String ":" rest) = host :: split_on ":" rest.
Proof.
  induction host as [|c host IH]; [reflexivity|].
  cbn [includes startsWith]. rewrite andb_true_r.
  intros H. apply orb_false_elim in H as [Hc Hs].
  rewrite app_cons. cbn [split_on]. rewrite Ascii.eqb_sym, Hc, (IH Hs). reflexivity.
Qed.

Lemma remote_uri_ssh (host repo : string) :
  includes host ":" = false -> includes repo ":" = false ->
  remote_uri ("git@" +:+ host +:+ ":" +:+ repo +:+ ".git")
  = "https://" +:+ host +:+ "/" +:+ repo.
Proof.
  intros Hh Hr. unfold remote_uri.
  replace ("git@" +:+ host +:+ ":" +:+ repo +:+ ".git")
    with (("git@" +:+ host +:+ ":" +:+ repo) +:+ ".git").
  2:{ rewrite !app_assoc_str. reflexivity. }
  rewrite remove_suffix_app by discriminate.
  change (startsWith ("git@" +:+ host +:+ ":" +:+ repo) "git") with true.
  change (slice 4 ("git@" +:+ host +:+ ":" +:+ repo)) with (host +:+ String ":" repo).
  cbv iota. rewrite (split_at_colon host repo Hh), (split_no_colon repo Hr).
  reflexivity.
Qed.

(** *** The claims about getUrl *)

(** C4. An SSH-style remote [git@host:repo.git] is rewritten to
    [https://host/repo]; a list of two line numbers gives the anchor
    [L<a>-L<b>]; and, with a URI parser that returns on
    [https://github.com/foo/bar] and finds the authority [github.com] in
    it, the call
    [getUrl("git@github.com:foo/bar.git", "main", "src/x.ts", [10,20])]
    returns [https://github.com/foo/bar/blob/main/src/x.ts#L10-L20] and shows
    no message. *)
Theorem getUrl_ssh_remote (Uri_parse : string -> option Uri) :
  (forall host repo,
     includes host ":" = false -> includes repo ":" = false ->
     remote_uri ("git@" +:+ host +:+ ":" +:+ repo +:+ ".git")
     = "https://" +:+ host +:+ "/" +:+ repo)
  /\ (forall a b,
        line_anchor (LineNumbers [a; b])
        = "L" +:+ number_to_string a +:+ "-L" +:+ number_to_string b)
  /\ (authority <$> Uri_parse "https://github.com/foo/bar" = Some "github.com" ->
      getUrl Uri_parse "git@github.com:foo/bar.git" "main" "src/x.ts"
             (LineNumbers [NInt 10; NInt 20])
      = Some ("https://github.com/foo/bar/blob/main/src/x.ts#L10-L20", [])).
Proof.
  split; [|split].
  - apply remote_uri_ssh.
  - intros a b. reflexivity.
  - intros Hauth. unfold getUrl.
    change (remote_uri "git@github.com:foo/bar.git") with "https://github.com/foo/bar".
    destruct (Uri_parse "https://github.com/foo/bar") as [u|]; [|discriminate Hauth].
    injection Hauth as Hauth. rewrite Hauth. vm_compute. reflexivity.
Qed.

(** C4 with the RFC 3986 decomposition as the parser. *)
Lemma getUrl_ssh_remote_witness :
  getUrl parse_uri "git@github.com:foo/bar.git" "main" "src/x.ts"
         (LineNumbers [NInt 10; NInt 20])
  = Some ("https://github.com/foo/bar/blob/main/src/x.ts#L10-L20", [])
  /\ remote_uri "git@example.org:team/tool.git" = "https://example.org/team/tool".
Proof.
  destruct (getUrl_ssh_remote parse_uri) as (Hssh & _ & Hex).
  split.
  - apply Hex. reflexivity.
  - apply (Hssh "example.org" "team/tool"); reflexivity.
Defined.

(** What the rewriting makes of a remote with the scheme [git]: the four
    characters [git:] are dropped and nothing follows a colon. *)
Lemma remote_uri_git_scheme :
  remote_uri "git://github.com/foo/bar.git" = "https:////github.com/foo/bar/undefined".
Proof. reflexivity. Qed.




(** * Further properties *)

(** ** spawnCommand and runCommandWithData *)

Lemma run_listeners_app (cmd : string) (args : list string)
    (st : spawn_state) (pre post : list spawn_event) :
  foldl (spawn_step cmd args) st (pre ++ post)
  = foldl (spawn_step cmd args) (foldl (spawn_step cmd args) st pre) post.
Proof. apply foldl_app. Qed.

(** Before the first [close] the promise is pending and [res] holds the
    output so far. *)
Lemma listeners_before_close (cmd : string) (args : list string)
    (st : spawn_state) (pre : list spawn_event) :
  (forall ev, ev ∈ pre -> is_close ev = false) ->
  res (foldl (spawn_step cmd args) st pre) = res st +:+ stdout_text pre
  /\ outcome (foldl (spawn_step cmd args) st pre) = outcome st.
Proof.
  revert st. induction pre as [|ev pre IH]; intros st Hpre.
  - simpl. rewrite app_empty_r. split; reflexivity.
  - assert (Hev : is_close ev = false) by (apply Hpre, elem_of_cons; left; reflexivity).
    assert (Hrest : forall ev', ev' ∈ pre -> is_close ev' = false)
      by (intros ev' Hin; apply Hpre, elem_of_cons; right; exact Hin).
    cbn [foldl]. destruct (IH (spawn_step cmd args st ev) Hrest) as [Hres Hout].
    rewrite Hres, Hout.
    destruct ev as [data|data|code]; [| |discriminate]; cbn [spawn_step res outcome stdout_text].
    + rewrite app_assoc_str. split; reflexivity.
    + split; reflexivity.
Qed.

(** Once settled, the promise keeps its settlement. *)
Lemma listeners_after_close (cmd : string) (args : list string)
    (st : spawn_state) (post : list spawn_event) (r : settled string) :
  outcome st = Some r ->
  outcome (foldl (spawn_step cmd args) st post) = Some r.
Proof.
  revert st. induction post as [|ev post IH]; intros st Hst; [exact Hst|].
  cbn [foldl]. apply IH.
  destruct ev as [data|data|code]; cbn [spawn_step outcome]; try exact Hst.
  rewrite Hst. exact Hst.
Qed.

Lemma listeners_shown (cmd : string) (args : list string)
    (st : spawn_state) (events : list spawn_event) :
  shown (foldl (spawn_step cmd args) st events)
  = shown st ++ (stderr_message cmd args <$> stderr_chunks events).
Proof.
  revert st. induction events as [|ev events IH]; intros st.
  - simpl. rewrite app_nil_r. reflexivity.
  - cbn [foldl]. rewrite IH.
    destruct ev as [data|data|code]; cbn [spawn_step shown stderr_chunks fmap list_fmap].
    + reflexivity.
    + rewrite <- app_assoc. reflexivity.
    + destruct (outcome st); [reflexivity|]. destruct (code_nonzero code); reflexivity.
Qed.

Lemma listeners_settle (cmd : string) (args : list string)
    (pre post : list spawn_event) (code : option Z) :
  (forall ev, ev ∈ pre -> is_close ev = false) ->
  outcome (run_listeners cmd args (pre ++ Close code :: post))
  = Some (if code_nonzero code
          then Rejected (exit_error cmd code)
          else Resolved (stdout_text pre)).
Proof.
  intros Hpre. unfold run_listeners. rewrite run_listeners_app. cbn [foldl].
  destruct (listeners_before_close cmd args (mk_spawn_state "" None []) pre Hpre)
    as [Hres Hout].
  cbn [res outcome] in Hres, Hout.
  apply listeners_after_close.
  cbn [spawn_step]. rewrite Hout.
  destruct (code_nonzero code); cbn [outcome]; [reflexivity|].
  rewrite Hres. reflexivity.
Qed.

Lemma listeners_pending (cmd : string) (args : list string)
    (events : list spawn_event) :
  (forall ev, ev ∈ events -> is_close ev = false) ->
  outcome (run_listeners cmd args events) = None.
Proof.
  intros H. unfold run_listeners.
  destruct (listeners_before_close cmd args (mk_spawn_state "" None []) events H)
    as [_ Hout].
  exact Hout.
Qed.

Lemma first_close (events : list spawn_event) :
  (exists ev, ev ∈ events /\ is_close ev = true) ->
  exists pre code post,
    events = pre ++ Close code :: post /\
    (forall ev, ev ∈ pre -> is_close ev = false).
Proof.
  induction events as [|ev events IH]; intros (ev' & Hin & Hc).
  - apply elem_of_nil in Hin. contradiction.
  - destruct ev as [data|data|code].
    + apply elem_of_cons in Hin as [->|Hin]; [discriminate|].
      destruct IH as (pre & code & post & -> & Hpre); [eauto|].
      exists (StdoutData data :: pre), code, post. split; [reflexivity|].
      intros ev Hev. apply elem_of_cons in Hev as [->|Hev]; [reflexivity|auto].
    + apply elem_of_cons in Hin as [->|Hin]; [discriminate|].
      destruct IH as (pre & code & post & -> & Hpre); [eauto|].
      exists (StderrData data :: pre), code, post. split; [reflexivity|].
      intros ev Hev. apply elem_of_cons in Hev as [->|Hev]; [reflexivity|auto].
    + exists [], code, events. split; [reflexivity|].
      intros ev Hev. apply elem_of_nil in Hev. contradiction.
Qed.

(** X1. When the first [close] event of the child process carries the code
    [0], [spawnCommand] and [runCommandWithData] resolve with the
    concatenation, in order, of the [stdout] chunks received before it;
    with any other code ([null] included) they reject with
    [<cmd> exited with code <code>]. What the process writes to [stderr]
    and what it emits after the first [close] has no part in the
    settlement. *)
Theorem spawned_settlement
    (spawn : string -> list string -> string -> option string -> list spawn_event)
    (cmd : string) (args : list string) (cwd data : string)
    (pre post : list spawn_event) (code : option Z) :
  (forall ev, ev ∈ pre -> is_close ev = false) ->
  (spawn cmd args cwd None = pre ++ Close code :: post ->
   fst (spawnCommand spawn cmd args cwd)
   = Some (if code_nonzero code
           then Rejected (mk_Error (cmd +:+ " exited with code " +:+ code_to_string code))
           else Resolved (stdout_text pre)))
  /\ (spawn cmd args cwd (Some data) = pre ++ Close code :: post ->
      fst (runCommandWithData spawn cmd args cwd data)
      = Some (if code_nonzero code
              then Rejected (mk_Error (cmd +:+ " exited with code " +:+ code_to_string code))
              else Resolved (stdout_text pre))).
Proof.
  intros Hpre. split; intros Hev.
  - unfold spawnCommand. rewrite Hev. cbn [fst].
    apply (listeners_settle cmd args pre post code Hpre).
  - unfold runCommandWithData. rewrite Hev. cbn [fst].
    apply (listeners_settle cmd args pre post code Hpre).
Qed.

(** X1 at a run that prints two chunks around a warning and exits with 0,
    and at a filter that echoes its input and exits with 3. *)
Lemma spawned_settlement_witness :
  fst (spawnCommand chatty_git "git" ["log"] "/repo")
  = Some (Resolved "commit 1commit 2")
  /\ fst (runCommandWithData failing_filter "git" ["apply"] "/repo" "patch")
     = Some (Rejected (mk_Error "git exited with code 3")).
Proof.
  split.
  - apply (spawned_settlement chatty_git "git" ["log"] "/repo" ""
             [StdoutData "commit 1"; StderrData "warning: x"; StdoutData "commit 2"]
             [] (Some 0%Z)); [|reflexivity].
    intros ev Hev. repeat (apply elem_of_cons in Hev as [->|Hev]; [reflexivity|]).
    apply elem_of_nil in Hev. contradiction.
  - apply (spawned_settlement failing_filter "git" ["apply"] "/repo" "patch"
             [StdoutData "patch"; StderrData "fatal"] [] (Some 3%Z)); [|reflexivity].
    intros ev Hev. repeat (apply elem_of_cons in Hev as [->|Hev]; [reflexivity|]).
    apply elem_of_nil in Hev. contradiction.
Defined.

(** X2. [spawnCommand] and [runCommandWithData] show one error message per
    chunk the process writes to [stderr], in the order of the chunks and
    whatever the exit code; nothing else is shown. *)
Theorem spawned_messages
    (spawn : string -> list string -> string -> option string -> list spawn_event)
    (cmd : string) (args : list string) (cwd data : string) :
  snd (spawnCommand spawn cmd args cwd)
  = stderr_message cmd args <$> stderr_chunks (spawn cmd args cwd None)
  /\ snd (runCommandWithData spawn cmd args cwd data)
     = stderr_message cmd args <$> stderr_chunks (spawn cmd args cwd (Some data))
  /\ length (snd (spawnCommand spawn cmd args cwd))
     = length (stderr_chunks (spawn cmd args cwd None)).
Proof.
  unfold spawnCommand, runCommandWithData, run_listeners. cbn [snd].
  rewrite !listeners_shown. cbn [shown app].
  rewrite length_fmap. repeat split.
Qed.

(** X3. Neither function has a timer: the returned promise stays pending
    exactly when the child process never emits [close]. *)
Theorem spawned_pending
    (spawn : string -> list string -> string -> option string -> list spawn_event)
    (cmd : string) (args : list string) (cwd data : string) :
  (fst (spawnCommand spawn cmd args cwd) = None <->
   forall ev, ev ∈ spawn cmd args cwd None -> is_close ev = false)
  /\ (fst (runCommandWithData spawn cmd args cwd data) = None <->
      forall ev, ev ∈ spawn cmd args cwd (Some data) -> is_close ev = false).
Proof.
  assert (H : forall events,
             outcome (run_listeners cmd args events) = None <->
             forall ev, ev ∈ events -> is_close ev = false).
  { intros events. split; [|apply listeners_pending].
    intros Hnone ev Hin. destruct (is_close ev) eqn:Hc; [|reflexivity].
    destruct (first_close events) as (pre & code & post & -> & Hpre); [eauto|].
    rewrite (listeners_settle cmd args pre post code Hpre) in Hnone. discriminate. }
  split; apply H.
Qed.

(** X3 at a process that prints and is never closed. *)
Lemma spawned_pending_witness :
  fst (spawnCommand never_closes "tail" ["-f"; "log"] "/") = None.
Proof.
  apply (spawned_pending never_closes "tail" ["-f"; "log"] "/" "").
  intros ev Hev. apply list_elem_of_singleton in Hev as ->. reflexivity.
Defined.

(** ** shellescape on every string *)

Lemma safe_char_plain (cur : option string) (c : ascii) (r : string) :
  is_safe_char c = true ->
  lex Plain cur (String c r) = lex Plain (push cur c) r.
Proof.
  destruct c as [[] [] [] [] [] [] [] []]; intros H;
    first [discriminate H | reflexivity].
Qed.

Lemma lex_safe_word (s w : string) :
  has_unsafe_char s = false -> lex Plain (Some w) s = Some [w +:+ s].
Proof.
  revert w. induction s as [|c s IH]; intros w Hs.
  - simpl. rewrite app_empty_r. reflexivity.
  - cbn [has_unsafe_char] in Hs. apply orb_false_elim in Hs as [Hc Hs].
    apply negb_false_iff in Hc.
    rewrite (safe_char_plain _ c s Hc), push_some, (IH _ Hs), app_snoc.
    reflexivity.
Qed.

Lemma shellescape_roundtrip_nonempty (platform s : string) :
  platform <> "win32" -> s <> "" ->
  posix_words (shellescape platform s) = Some [s].
Proof.
  intros Hp Hs. destruct (has_unsafe_char s) eqn:Hunsafe.
  - rewrite (shellescape_posix platform s Hp Hunsafe).
    apply quoted_token_parses, Hs.
  - unfold shellescape.
    destruct (String.eqb_spec platform "win32") as [E|_]; [contradiction|].
    rewrite Hunsafe. destruct s as [|c s]; [congruence|].
    cbn [has_unsafe_char] in Hunsafe. apply orb_false_elim in Hunsafe as [Hc Hrest].
    apply negb_false_iff in Hc.
    unfold posix_words. rewrite (safe_char_plain None c s Hc).
    unfold push. rewrite (lex_safe_word s _ Hrest). reflexivity.
Qed.

(** X4. On a platform other than win32 the token [shellescape s] is read
    back by the shell parser as the single argument [s] for every non-empty
    string [s], whether it needed quoting or not. The empty string is the
    one exception: [shellescape ""] is the empty token, which the shell reads
    as no argument at all. *)
Theorem shellescape_roundtrip (platform s : string) :
  platform <> "win32" ->
  (posix_words (shellescape platform s) = Some [s] <-> s <> "")
  /\ posix_words (shellescape platform "") = Some [].
Proof.
  intros Hp. split; [split|].
  - intros H ->. unfold shellescape in H.
    destruct (String.eqb_spec platform "win32") as [E|_]; [contradiction|].
    discriminate H.
  - apply shellescape_roundtrip_nonempty, Hp.
  - unfold shellescape.
    destruct (String.eqb_spec platform "win32") as [E|_]; [contradiction|].
    reflexivity.
Qed.

(** X4 at a bare word, a word with a blank and a dollar, and the empty
    string. *)
Lemma shellescape_roundtrip_witness :
  posix_words (shellescape "linux" "src/a-b_c:1=2") = Some ["src/a-b_c:1=2"]
  /\ posix_words (shellescape "linux" "a $b") = Some ["a $b"]
  /\ posix_words (shellescape "linux" "") = Some [].
Proof.
  split; [|split].
  - apply (shellescape_roundtrip "linux" "src/a-b_c:1=2"); discriminate.
  - apply (shellescape_roundtrip "linux" "a $b"); discriminate.
  - apply (shellescape_roundtrip "linux" "x"). discriminate.
Defined.

(** *** Distinct strings get distinct tokens *)

Lemma escape_dquote_cons (c : ascii) (r : string) :
  replace_all (String dquote_char "") (String backslash_char (String dquote_char ""))
    (String c r)
  = if Ascii.eqb dquote_char c
    then String backslash_char (String dquote_char
           (replace_all (String dquote_char "")
              (String backslash_char (String dquote_char "")) r))
    else String c (replace_all (String dquote_char "")
                     (String backslash_char (String dquote_char "")) r).
Proof.
  unfold replace_all. rewrite replace_go_cons, startsWith_cons.
  cbn [startsWith]. rewrite andb_true_r. reflexivity.
Qed.

Lemma escape_dquote_head (s r : string) :
  replace_all (String dquote_char "") (String backslash_char (String dquote_char "")) s
  <> String dquote_char r.
Proof.
  destruct s as [|c s]; [discriminate|].
  rewrite escape_dquote_cons.
  destruct (Ascii.eqb_spec dquote_char c) as [<-|Hc]; [discriminate|].
  intros E. injection E as E _. congruence.
Qed.

Lemma escape_dquote_inj (s1 s2 : string) :
  replace_all (String dquote_char "") (String backslash_char (String dquote_char "")) s1
  = replace_all (String dquote_char "") (String backslash_char (String dquote_char "")) s2 ->
  s1 = s2.
Proof.
  revert s2. induction s1 as [|c1 s1 IH]; intros [|c2 s2].
  - reflexivity.
  - rewrite escape_dquote_cons.
    destruct (Ascii.eqb dquote_char c2); discriminate.
  - rewrite escape_dquote_cons.
    destruct (Ascii.eqb dquote_char c1); discriminate.
  - rewrite !escape_dquote_cons.
    destruct (Ascii.eqb_spec dquote_char c1) as [<-|H1];
      destruct (Ascii.eqb_spec dquote_char c2) as [<-|H2]; intros E.
    + injection E as E. f_equal. apply IH, E.
    + injection E as <- E. symmetry in E. apply escape_dquote_head in E. contradiction.
    + injection E as -> E. apply escape_dquote_head in E. contradiction.
    + injection E as -> E. f_equal. apply IH, E.
Qed.

Lemma string_app_inv_tail (a b c : string) : a +:+ c = b +:+ c -> a = b.
Proof.
  revert b. induction a as [|x a IH]; intros [|y b] E.
  - reflexivity.
  - apply (f_equal String.length) in E. rewrite !string_length_app in E.
    simpl in E. lia.
  - apply (f_equal String.length) in E. rewrite !string_length_app in E.
    simpl in E. lia.
  - rewrite !app_cons in E. injection E as -> E. f_equal. apply IH, E.
Qed.

(** X5. On every platform [shellescape] gives different tokens to different
    strings. *)
Theorem shellescape_injective (platform s1 s2 : string) :
  s1 <> s2 -> shellescape platform s1 <> shellescape platform s2.
Proof.
  intros Hne E. apply Hne. clear Hne.
  destruct (String.eqb_spec platform "win32") as [->|Hp].
  - unfold shellescape in E. cbn [String.eqb Ascii.eqb Bool.eqb] in E.
    injection E as E. apply string_app_inv_tail in E.
    apply escape_dquote_inj, E.
  - apply (f_equal posix_words) in E.
    destruct (string_dec s1 "") as [->|H1]; destruct (string_dec s2 "") as [->|H2].
    + reflexivity.
    + rewrite (shellescape_roundtrip_nonempty _ _ Hp H2) in E.
      unfold shellescape in E.
      destruct (String.eqb_spec platform "win32") as [E'|_]; [contradiction|].
      discriminate E.
    + rewrite (shellescape_roundtrip_nonempty _ _ Hp H1) in E.
      unfold shellescape in E.
      destruct (String.eqb_spec platform "win32") as [E'|_]; [contradiction|].
      discriminate E.
    + rewrite (shellescape_roundtrip_nonempty _ _ Hp H1),
        (shellescape_roundtrip_nonempty _ _ Hp H2) in E.
      congruence.
Qed.

(** X5 at two strings that differ by a quote, on both kinds of platform. *)
Lemma shellescape_injective_witness :
  shellescape "linux" "it's" <> shellescape "linux" "its"
  /\ shellescape "win32" "a\b" <> shellescape "win32" "ab".
Proof.
  split; apply shellescape_injective; discriminate.
Defined.

(** ** Settling and pending promises of the shell-line runners *)

Section ProcessRunnerMore.

Variable ExecOptions : Type.
Variable exec : string -> ExecOptions -> process_run.

Local Open Scope Z_scope.

(** X6. [safeRun] always settles, at the latest 5,000,000 ms after the call,
    and always by resolving. It resolves with [null] exactly when the run
    failed, and then it has logged exactly one line; a successful run
    resolves with its output, the empty output included, and logs
    nothing. *)
Theorem safeRun_settles (cmd : string) (opts : ExecOptions) :
  exists (log : list string) (t : Z) (v : option string),
    safeRun ExecOptions exec cmd opts = (log, Some (t, Resolved v)) /\
    t <= 5000000 /\
    (v = None <-> run_fails (Some 5000) (exec cmd opts)) /\
    (v = None <-> length log = 1%nat) /\
    (v <> None -> log = [] /\
       exists d res, exec cmd opts = Completes d res /\ v = Some (stdout res)).
Proof.
  pose proof (safeRun_outcome ExecOptions exec cmd opts) as H. revert H.
  unfold run_fails, truthy_timeout.
  change (host_delay (default 0 (Some 5000) * 1000)) with 5000000.
  destruct (exec cmd opts) as [d res|].
  - destruct (Z.leb_spec d 5000000) as [Hle|Hgt].
    + destruct (err res) as [code|] eqn:Herr; intros H.
      * eexists _, d, None. split; [exact H|]. split; [exact Hle|].
        split; [split; [intros _; left; discriminate|reflexivity]|].
        split; [split; reflexivity|]. intros Hv. contradiction.
      * eexists _, d, (Some (stdout res)). split; [exact H|]. split; [exact Hle|].
        split; [split; [discriminate|intros [Hc|[_ Hc]]; [congruence|lia]]|].
        split; [split; discriminate|].
        intros _. split; [reflexivity|]. exists d, res. split; reflexivity.
    + intros H. eexists _, 5000000, None. split; [exact H|]. split; [lia|].
      split; [split; [intros _; right; split; [reflexivity|lia]|reflexivity]|].
      split; [split; reflexivity|]. intros Hv. contradiction.
  - intros H. eexists _, 5000000, None. split; [exact H|]. split; [lia|].
    split; [split; reflexivity|].
    split; [split; reflexivity|]. intros Hv. contradiction.
Qed.

(** X7. [getStdout] does not look at the exit status: two runs that complete
    at the same time with the same standard output settle [getStdout] in the
    same way, whatever their errors and standard error texts. In
    particular, with no timeout, a failed run without output and a
    successful run without output both resolve with no value. *)
Theorem getStdout_ignores_status
    (exec' : string -> ExecOptions -> process_run)
    (cmd : string) (opts : ExecOptions) (timeout : option Z)
    (d : Z) (out : string) (e e' : option err_code) (errtxt errtxt' : string) :
  exec cmd opts = Completes d (mk_exec_result e out errtxt) ->
  exec' cmd opts = Completes d (mk_exec_result e' out errtxt') ->
  getStdout ExecOptions exec cmd opts timeout
  = getStdout ExecOptions exec' cmd opts timeout
  /\ (out = "" ->
      getStdout ExecOptions exec cmd opts None = Some (d, Resolved None)).
Proof.
  intros H H'. split.
  - unfold getStdout. rewrite H, H'. unfold event_loop.
    destruct (timer (@arm_timer (option string) timeout)) as [delay|] eqn:Htimer.
    + destruct (Z.ltb (host_delay delay) d); reflexivity.
    + reflexivity.
  - intros ->. rewrite (getStdout_unarmed ExecOptions exec cmd opts None eq_refl), H.
    reflexivity.
Qed.

(** X8. With a non-zero timeout [runCommand] and [getStdout] always settle,
    no later than the moment at which the host runs the timer: that is
    [timeout * 1000] ms after the call for a delay in the range of the host
    and 1 ms after it otherwise, so never later than the timeout (or 1 ms).
    With the timeout absent or zero they stay pending exactly when the
    process never completes. *)
Theorem runners_settle (cmd : string) (opts : ExecOptions) :
  (forall t, t <> 0 ->
     (exists at_ms r, runCommand ExecOptions exec cmd opts (Some t) = Some (at_ms, r)
                      /\ at_ms <= host_delay (t * 1000)) /\
     (exists at_ms r, getStdout ExecOptions exec cmd opts (Some t) = Some (at_ms, r)
                      /\ at_ms <= host_delay (t * 1000)) /\
     host_delay (t * 1000) <= Z.max (t * 1000) 1)
  /\ (forall timeout, timeout = None \/ timeout = Some 0 ->
        (runCommand ExecOptions exec cmd opts timeout = None <-> exec cmd opts = Hangs) /\
        (getStdout ExecOptions exec cmd opts timeout = None <-> exec cmd opts = Hangs)).
Proof.
  split.
  - intros t Ht. split; [|split; [|apply host_delay_le]].
    + destruct (exec cmd opts) as [d res|] eqn:Hp.
      * destruct (Z.le_gt_cases d (host_delay (t * 1000))) as [Hle|Hgt].
        -- rewrite (runCommand_exec_first _ _ _ _ _ _ _ Ht Hp Hle).
           eexists _, _. split; [reflexivity|lia].
        -- rewrite (runCommand_timer_first _ _ cmd opts t Ht).
           ++ eexists _, _. split; [reflexivity|lia].
           ++ right. exists d, res. split; [exact Hp|lia].
      * rewrite (runCommand_timer_first _ _ cmd opts t Ht).
        -- eexists _, _. split; [reflexivity|lia].
        -- left. exact Hp.
    + destruct (exec cmd opts) as [d res|] eqn:Hp.
      * destruct (Z.le_gt_cases d (host_delay (t * 1000))) as [Hle|Hgt].
        -- rewrite (getStdout_exec_first _ _ _ _ _ _ _ Ht Hp Hle).
           eexists _, _. split; [reflexivity|lia].
        -- rewrite (getStdout_timer_first _ _ cmd opts t Ht).
           ++ eexists _, _. split; [reflexivity|lia].
           ++ right. exists d, res. split; [exact Hp|lia].
      * rewrite (getStdout_timer_first _ _ cmd opts t Ht).
        -- eexists _, _. split; [reflexivity|lia].
        -- left. exact Hp.
  - intros timeout Hf. apply truthy_timeout_false in Hf.
    rewrite (runCommand_unarmed _ _ _ _ _ Hf), (getStdout_unarmed _ _ _ _ _ Hf).
    destruct (exec cmd opts) as [d res|]; split; split;
      first [discriminate | reflexivity].
Qed.

End ProcessRunnerMore.

(** X7 at [exit 1] and at a successful run, both without output. *)
Lemma getStdout_ignores_status_witness :
  getStdout unit exit_1 "exit 1" tt None
  = getStdout unit (fun _ _ => Completes 5%Z (mk_exec_result None "" "")) "exit 1" tt None
  /\ getStdout unit exit_1 "exit 1" tt None = Some (5%Z, Resolved None).
Proof.
  destruct (getStdout_ignores_status unit exit_1
              (fun _ _ => Completes 5%Z (mk_exec_result None "" ""))
              "exit 1" tt None 5%Z "" (Some (ExitCode 1)) None "" "" eq_refl eq_refl)
    as [Hsame Hnone].
  split; [exact Hsame|apply Hnone; reflexivity].
Defined.

(** X8 at a process that never ends: settled after two seconds with a
    timeout of 2, pending without. *)
Lemma runners_settle_witness :
  (exists at_ms r, runCommand unit never_ends "cat" tt (Some 2%Z) = Some (at_ms, r)
                   /\ (at_ms <= 2000)%Z)
  /\ runCommand unit never_ends "cat" tt None = None.
Proof.
  destruct (runners_settle unit never_ends "cat" tt) as [Hon Hoff].
  split.
  - destruct (Hon 2%Z) as [Hrun _]; [discriminate|]. exact Hrun.
  - apply (Hoff None); [left; reflexivity|reflexivity].
Defined.

(** ** More on equals *)

Lemma number_eqb_sym (a b : number) : number_eqb a b = number_eqb b a.
Proof.
  destruct a as [x|x|], b as [y|y|]; simpl; try reflexivity.
  - apply Z.eqb_sym.
  - destruct x, y; reflexivity.
Qed.

Lemma strict_eq_sym (a b : value) : strict_eq a b = strict_eq b a.
Proof.
  destruct a, b; simpl; try reflexivity.
  - destruct b0, b; reflexivity.
  - apply number_eqb_sym.
  - apply String.eqb_sym.
  - apply Pos.eqb_sym.
  - apply Pos.eqb_sym.
Qed.

(** On a primitive value or [null], on either side, [equals] is [===]. *)
Lemma equals_primitive_l (fuel : nat) (a b : value) :
  typeof a <> "object" \/ a = VNull ->
  equals (S fuel) a b = Some (strict_eq a b).
Proof.
  intros H. rewrite equals_S.
  destruct a; try (destruct H as [H|H]; [exfalso; apply H; reflexivity|discriminate H]);
    destruct b; cbn; try reflexivity;
    match goal with |- context [if ?c then _ else _] => destruct c end; reflexivity.
Qed.

Lemma equals_primitive_r (fuel : nat) (a b : value) :
  typeof b <> "object" \/ b = VNull ->
  equals (S fuel) a b = Some (strict_eq a b).
Proof.
  intros H. rewrite equals_S.
  destruct b; try (destruct H as [H|H]; [exfalso; apply H; reflexivity|discriminate H]);
    destruct a; cbn; try reflexivity;
    match goal with |- context [if ?c then _ else _] => destruct c end; reflexivity.
Qed.

Lemma equals_arrays_locs (fuel : nat) (l1 l2 m1 m2 : loc) (xs ys : list value) :
  l1 <> l2 -> m1 <> m2 ->
  equals fuel (VArr l1 xs) (VArr l2 ys) = equals fuel (VArr m1 xs) (VArr m2 ys).
Proof.
  intros Hl Hm. destruct fuel as [|fuel]; [reflexivity|].
  rewrite !equals_S.
  cbn [strict_eq is_null is_undefined typeof isArray orb negb array_length get_index].
  rewrite (proj2 (Pos.eqb_neq l1 l2) Hl), (proj2 (Pos.eqb_neq m1 m2) Hm).
  reflexivity.
Qed.

Lemma equals_arrays (fuel : nat) (l1 l2 : loc) (xs ys : list value) :
  l1 <> l2 ->
  equals (S fuel) (VArr l1 xs) (VArr l2 ys) =
  if Nat.eqb (length xs) (length ys)
  then all_equal (equals fuel) (zip xs ys)
  else Some false.
Proof.
  intros Hl. rewrite equals_S.
  cbn [strict_eq is_null is_undefined typeof isArray orb negb array_length get_index].
  rewrite (proj2 (Pos.eqb_neq l1 l2) Hl).
  cbn [String.eqb Ascii.eqb Bool.eqb negb].
  destruct (Nat.eqb_spec (length xs) (length ys)) as [Hlen|Hlen]; cbn [negb];
    [|reflexivity].
  rewrite index_pairs by exact Hlen. reflexivity.
Qed.

Lemma all_equal_nil_inv (pairs : list (value * value)) :
  all_equal (equals 0) pairs = Some true -> pairs = [].
Proof. destruct pairs as [|[x y] pairs]; [reflexivity|discriminate]. Qed.

Lemma key_arrays_true (fuel : nat) (l1 l2 : loc) (ks1 ks2 : list string) :
  l1 <> l2 ->
  equals fuel (fresh_array l1 ks1) (fresh_array l2 ks2) = Some true -> ks1 = ks2.
Proof.
  intros Hl. destruct fuel as [|[|fuel]].
  - discriminate.
  - unfold fresh_array. rewrite (equals_arrays 0 l1 l2 _ _ Hl), !length_fmap.
    destruct (Nat.eqb_spec (length ks1) (length ks2)) as [Hlen|_]; [|discriminate].
    intros H. apply all_equal_nil_inv in H.
    destruct ks1, ks2; try discriminate. reflexivity.
  - rewrite (equals_key_arrays fuel l1 l2 ks1 ks2 Hl).
    intros H. injection H as H. apply bool_decide_eq_true in H. exact H.
Qed.

Lemma all_equal_swap (eq : value -> value -> option bool)
    (pairs : list (value * value)) :
  (forall x y, eq x y = eq y x) ->
  all_equal eq (prod_swap <$> pairs) = all_equal eq pairs.
Proof.
  intros Hsym. induction pairs as [|[x y] pairs IH]; [reflexivity|].
  cbn [fmap list_fmap prod_swap all_equal fst snd]. rewrite (Hsym y x), IH.
  reflexivity.
Qed.

Ltac plain_value := first [left; cbn; discriminate | right; reflexivity].

Lemma equals_sym_fuel (fuel : nat) (a b : value) :
  equals fuel a b = equals fuel b a.
Proof.
  revert a b. induction fuel as [|fuel IH]; intros a b; [reflexivity|].
  destruct a as [| |?|?|?|l xs|l ps];
    try (rewrite equals_primitive_l by plain_value;
         rewrite equals_primitive_r by plain_value;
         f_equal; apply strict_eq_sym);
    destruct b as [| |?|?|?|l' ys|l' qs];
    try (rewrite equals_primitive_r by plain_value;
         rewrite equals_primitive_l by plain_value;
         f_equal; apply strict_eq_sym).
  - (* two arrays *)
    destruct (decide (l = l')) as [->|Hl].
    + rewrite !equals_S. cbn [strict_eq]. rewrite Pos.eqb_refl. reflexivity.
    + rewrite (equals_arrays fuel l l' xs ys Hl).
      rewrite (equals_arrays fuel l' l ys xs (not_eq_sym Hl)).
      rewrite (Nat.eqb_sym (length ys) (length xs)).
      destruct (Nat.eqb (length xs) (length ys)); [|reflexivity].
      rewrite <- (all_equal_swap (equals fuel) (zip xs ys) IH).
      f_equal. clear. revert ys. induction xs as [|x xs IHxs]; intros [|y ys];
        try reflexivity.
      cbn [zip zip_with fmap list_fmap prod_swap fst snd]. f_equal. apply IHxs.
  - (* an array and a mapping *)
    rewrite !equals_S. reflexivity.
  - rewrite !equals_S. reflexivity.
  - (* two mappings *)
    destruct (decide (l = l')) as [->|Hl].
    + rewrite !equals_S. cbn [strict_eq]. rewrite Pos.eqb_refl. reflexivity.
    + rewrite !equals_S.
      cbn [strict_eq is_null is_undefined typeof isArray orb negb keys_in get_prop].
      rewrite (proj2 (Pos.eqb_neq l l') Hl), (proj2 (Pos.eqb_neq l' l) (not_eq_sym Hl)).
      cbn [String.eqb Ascii.eqb Bool.eqb negb].
      rewrite (IH (fresh_array 1%positive (sort_keys (fst <$> qs)))
                  (fresh_array 2%positive (sort_keys (fst <$> ps)))).
      unfold fresh_array at 3 4.
      rewrite (equals_arrays_locs fuel 2%positive 1%positive 1%positive 2%positive _ _) by discriminate.
      fold (fresh_array 1%positive (sort_keys (fst <$> ps))).
      fold (fresh_array 2%positive (sort_keys (fst <$> qs))).
      destruct (equals fuel (fresh_array 1%positive (sort_keys (fst <$> ps)))
                            (fresh_array 2%positive (sort_keys (fst <$> qs))))
        as [[|]|] eqn:Hkeys; try reflexivity.
      apply key_arrays_true in Hkeys; [|discriminate]. rewrite <- Hkeys.
      rewrite <- (all_equal_swap (equals fuel)
                    ((fun key => (lookup_prop ps key, lookup_prop qs key))
                       <$> sort_keys (fst <$> ps)) IH).
      rewrite <- list_fmap_compose. reflexivity.
Qed.

(** X9. [equals] is symmetric: [equals(a, b)] and [equals(b, a)] return the
    same answer, at every depth of recursion. *)
Theorem equals_symmetric (a b : value) :
  (forall fuel, equals fuel a b = equals fuel b a)
  /\ (forall r, equals_returns a b r <-> equals_returns b a r).
Proof.
  split.
  - intros fuel. apply equals_sym_fuel.
  - intros r. split; intros [fuel H]; exists fuel; rewrite equals_sym_fuel; exact H.
Qed.

(** X10. When one of the two values is a primitive value or [null],
    [equals] is [===]: a number, a string or a boolean is never equal to an
    array or a mapping, nor to a value of another type, and there is no
    recursion. *)
Theorem equals_primitive (a b : value) (fuel : nat) :
  typeof a <> "object" \/ a = VNull ->
  equals (S fuel) a b = Some (strict_eq a b)
  /\ equals (S fuel) b a = Some (strict_eq b a)
  /\ (isArray b = true \/ typeof b <> typeof a -> equals (S fuel) a b = Some false).
Proof.
  intros Ha. split; [|split].
  - apply equals_primitive_l, Ha.
  - apply equals_primitive_r, Ha.
  - intros Hb. rewrite (equals_primitive_l fuel a b Ha). f_equal.
    destruct a; try (destruct Ha as [Ha|Ha]; [exfalso; apply Ha; reflexivity|discriminate Ha]);
      destruct b; try reflexivity;
      destruct Hb as [Hb|Hb]; first [discriminate Hb | exfalso; apply Hb; reflexivity].
Qed.

(** X10 at the empty string against an empty array, and at [1] against
    ["1"]. *)
Lemma equals_primitive_witness :
  equals 1 (VStr "") (VArr 4%positive []) = Some false
  /\ equals 1 (VNum (NInt 1)) (VStr "1") = Some false
  /\ equals 1 (VStr "1") (VNum (NInt 1)) = Some false.
Proof.
  destruct (equals_primitive (VStr "") (VArr 4%positive []) 0) as (_ & _ & H1);
    [left; discriminate|].
  destruct (equals_primitive (VNum (NInt 1)) (VStr "1") 0) as (_ & H2 & H3);
    [left; discriminate|].
  split; [apply H1; left; reflexivity|split; [apply H3; right; discriminate|exact H2]].
Defined.

(** X11. For two arrays (two different objects) [equals] answers [false]
    when the lengths differ and otherwise what the comparisons of the
    elements, index by index and stopping at the first difference, answer.
    An array is never equal to a mapping, even when both are empty. *)
Theorem equals_sequences (l1 l2 : loc) (xs ys : list value) (fuel : nat) :
  l1 <> l2 ->
  equals (S fuel) (VArr l1 xs) (VArr l2 ys)
  = (if Nat.eqb (length xs) (length ys)
     then all_equal (equals fuel) (zip xs ys)
     else Some false)
  /\ (length xs <> length ys -> equals_returns (VArr l1 xs) (VArr l2 ys) false)
  /\ (forall ps, equals (S fuel) (VArr l1 xs) (VObj l2 ps) = Some false
                 /\ equals (S fuel) (VObj l2 ps) (VArr l1 xs) = Some false).
Proof.
  intros Hl. split; [|split].
  - apply equals_arrays, Hl.
  - intros Hlen. exists 1. rewrite (equals_arrays 0 l1 l2 xs ys Hl).
    destruct (Nat.eqb_spec (length xs) (length ys)); [contradiction|reflexivity].
  - intros ps. split; rewrite equals_S; reflexivity.
Qed.

(** X11 at [[1,2]] against [[1,2,3]] and at [[1,[2,3]]] against a copy. *)
Lemma equals_sequences_witness :
  equals_returns (VArr 1%positive [VNum (NInt 1); VNum (NInt 2)])
                 (VArr 2%positive [VNum (NInt 1); VNum (NInt 2); VNum (NInt 3)]) false
  /\ equals 3 (VArr 1%positive [VNum (NInt 1); VArr 3%positive [VNum (NInt 2); VNum (NInt 3)]])
              (VArr 2%positive [VNum (NInt 1); VArr 4%positive [VNum (NInt 2); VNum (NInt 3)]])
     = Some true.
Proof.
  split.
  - apply (equals_sequences 1%positive 2%positive _ _ 0); discriminate.
  - destruct (equals_sequences 1%positive 2%positive
                [VNum (NInt 1); VArr 3%positive [VNum (NInt 2); VNum (NInt 3)]]
                [VNum (NInt 1); VArr 4%positive [VNum (NInt 2); VNum (NInt 3)]] 2)
      as [H _]; [discriminate|].
    rewrite H. vm_compute. reflexivity.
Defined.

(** X12. [equals] returns [true] on a value and any copy of it: the same
    primitive values (none of them [NaN]), arrays of copies and mappings
    with copies at the same keys, whatever the identities of the arrays and
    mappings; and so it does with the two arguments exchanged. *)
Theorem equals_copies (a b : value) :
  copy_of a b -> equals_returns a b true /\ equals_returns b a true.
Proof.
  intros Hcopy.
  assert (H : equals (fuel_for a) a b = Some true) by (apply equals_copy; [exact Hcopy|lia]).
  split; exists (fuel_for a); [exact H|]. rewrite equals_sym_fuel. exact H.
Qed.

(** X12 at a mapping that holds an array and a mapping, and a copy made of
    other objects. *)
Lemma equals_copies_witness :
  equals_returns
    (VObj 1%positive [("xs", VArr 2%positive [VNum (NInt 1); VNull]);
                      ("m", VObj 3%positive [("k", VStr "v")])])
    (VObj 11%positive [("xs", VArr 12%positive [VNum (NInt 1); VNull]);
                       ("m", VObj 13%positive [("k", VStr "v")])])
    true.
Proof.
  apply equals_copies.
  apply copy_obj. constructor; [split; [reflexivity|]|].
  - apply copy_arr. constructor; [|constructor; [|constructor]].
    + apply copy_prim; [left; discriminate|reflexivity].
    + apply copy_prim; [right; reflexivity|reflexivity].
  - constructor; [split; [reflexivity|]|constructor].
    apply copy_obj. constructor; [split; [reflexivity|]|constructor].
    apply copy_prim; [left; discriminate|reflexivity].
Defined.

(** X13. [equals] returns on every pair of values: the depth [fuel_for one]
    is enough, and the answer is the same at every depth at which there is
    one. *)
Theorem equals_answer (one other : value) :
  exists r,
    equals (fuel_for one) one other = Some r /\
    (forall fuel, fuel_for one <= fuel -> equals fuel one other = Some r) /\
    (forall r', equals_returns one other r' -> r' = r).
Proof.
  destruct (equals_terminates (fuel_for one) one other) as [r Hr]; [lia|].
  exists r. split; [exact Hr|split].
  - intros fuel Hle. apply (equals_fuel_mono (fuel_for one) fuel); assumption.
  - intros r' Hr'. apply (equals_returns_unique one other r' r Hr').
    exists (fuel_for one). exact Hr.
Qed.

(** ** More on getUrl *)

Lemma remove_suffix_keeps (suf s : string) :
  (forall a, s <> a +:+ suf) -> remove_suffix suf s = s.
Proof.
  induction s as [|c s IH]; intros H; [reflexivity|].
  cbn [remove_suffix].
  destruct (String.eqb_spec (String c s) suf) as [E|_].
  - exfalso. apply (H ""). exact E.
  - rewrite IH; [reflexivity|].
    intros a E. apply (H (String c a)). rewrite E. reflexivity.
Qed.

Lemma string_app_nonempty (a b : string) : b <> "" -> a +:+ b <> "".
Proof.
  intros Hb E. apply (f_equal String.length) in E.
  rewrite string_length_app in E. destruct b; [congruence|]. simpl in E. lia.
Qed.

(** X14. [getUrl] throws exactly when the URI parser throws on the
    rewritten remote. Whenever it returns, it either returns a URL and shows
    nothing, or returns the empty string and shows exactly one warning: the
    returned string is empty exactly when a message was shown. *)
Theorem getUrl_url_or_warning (Uri_parse : string -> option Uri)
    (remote branch filepath : string) (lines : lines_arg) :
  (getUrl Uri_parse remote branch filepath lines = None <->
   Uri_parse (remote_uri remote) = None)
  /\ (forall url messages,
        getUrl Uri_parse remote branch filepath lines = Some (url, messages) ->
        (url = "" <-> length messages = 1)
        /\ (url <> "" <-> messages = [])
        /\ (forall n, n ∈ messages -> severity n = "warning")).
Proof.
  unfold getUrl. destruct (Uri_parse (remote_uri remote)) as [u|].
  - split.
    { destruct (startsWith (authority u) "github.com"); split; discriminate. }
    intros url messages.
    destruct (startsWith (authority u) "github.com"); intros E; injection E as <- <-.
    + assert (Hne : remote_uri remote +:+ "/blob/" +:+ branch +:+ "/" +:+ filepath
                    +:+ (if String.eqb (line_anchor lines) "" then ""
                         else "#" +:+ line_anchor lines) <> "")
        by (apply string_app_nonempty; discriminate).
      split; [split; [intros E; contradiction|discriminate]|].
      split; [split; [reflexivity|intros _; exact Hne]|].
      intros n Hn. apply elem_of_nil in Hn. contradiction.
    + split; [split; reflexivity|].
      split; [split; [intros H; exfalso; apply H; reflexivity|discriminate]|].
      intros n Hn. apply list_elem_of_singleton in Hn as ->. reflexivity.
  - split; [split; reflexivity|]. intros url messages E. discriminate E.
Qed.

(** X14 with the RFC 3986 decomposition as the parser, at a supported and
    at an unsupported host. *)
Lemma getUrl_url_or_warning_witness :
  ("https://github.com/foo/bar/blob/main/x.ts" <> ""
   <-> @nil notification = [])
  /\ ("" = "" <->
      length [mk_notification "Can't get url form: gitlab.com" "warning"] = 1).
Proof.
  destruct (getUrl_url_or_warning parse_uri "https://github.com/foo/bar.git"
              "main" "x.ts" NoLines) as [_ Hgh].
  destruct (getUrl_url_or_warning parse_uri "https://gitlab.com/foo/bar.git"
              "main" "x.ts" NoLines) as [_ Hgl].
  split.
  - apply (Hgh "https://github.com/foo/bar/blob/main/x.ts" []). reflexivity.
  - apply (Hgl "" [mk_notification "Can't get url form: gitlab.com" "warning"]).
    reflexivity.
Defined.

(** X15. The suffix [.git] of a remote is optional and is removed once:
    from [r.git] the function works on [r], also when [r] itself ends with
    [.git]; and for a remote [r] that does not end with [.git], [getUrl]
    answers the same for [r.git] and for [r]. *)
Theorem getUrl_git_suffix (Uri_parse : string -> option Uri)
    (r branch filepath : string) (lines : lines_arg) :
  remove_suffix ".git" (r +:+ ".git") = r
  /\ ((forall a, r <> a +:+ ".git") ->
      getUrl Uri_parse (r +:+ ".git") branch filepath lines
      = getUrl Uri_parse r branch filepath lines).
Proof.
  split.
  - apply remove_suffix_app. discriminate.
  - intros Hr. unfold getUrl, remote_uri.
    rewrite (remove_suffix_app ".git" r) by discriminate.
    rewrite (remove_suffix_keeps ".git" r Hr). reflexivity.
Qed.

(** X15 at an https remote, with the RFC 3986 decomposition as the parser. *)
Lemma getUrl_git_suffix_witness :
  getUrl parse_uri "https://github.com/foo/bar.git" "main" "x.ts" NoLines
  = getUrl parse_uri "https://github.com/foo/bar" "main" "x.ts" NoLines.
Proof.
  apply (getUrl_git_suffix parse_uri "https://github.com/foo/bar" "main" "x.ts" NoLines).
  intros a E.
  pose proof (remove_suffix_app ".git" a ltac:(discriminate)) as H.
  rewrite <- E in H. vm_compute in H. subst a.
  apply (f_equal String.length) in E. rewrite string_length_app in E.
  simpl in E. lia.
Defined.



(** X17. In an SSH-style remote only the text between the first and the
    second colon becomes the path: [git@host:path:rest.git] gives
    [https://host/path], whatever [rest] is. *)
Theorem remote_uri_second_colon (host repo rest : string) :
  includes host ":" = false -> includes repo ":" = false ->
  remote_uri ("git@" +:+ host +:+ ":" +:+ repo +:+ ":" +:+ rest +:+ ".git")
  = "https://" +:+ host +:+ "/" +:+ repo.
Proof.
  intros Hh Hr. unfold remote_uri.
  replace ("git@" +:+ host +:+ ":" +:+ repo +:+ ":" +:+ rest +:+ ".git")
    with (("git@" +:+ host +:+ ":" +:+ repo +:+ ":" +:+ rest) +:+ ".git")
    by (rewrite !app_assoc_str; reflexivity).
  rewrite remove_suffix_app by discriminate.
  change (startsWith ("git@" +:+ host +:+ ":" +:+ repo +:+ ":" +:+ rest) "git") with true.
  change (slice 4 ("git@" +:+ host +:+ ":" +:+ repo +:+ ":" +:+ rest))
    with (host +:+ String ":" (repo +:+ String ":" rest)).
  cbv iota.
  rewrite (split_at_colon host _ Hh), (split_at_colon repo rest Hr).
  reflexivity.
Qed.

(** X17 at a remote with a port-like second component. *)
Lemma remote_uri_second_colon_witness :
  remote_uri "git@github.com:foo:bar/baz.git" = "https://github.com/foo".
Proof.
  apply (remote_uri_second_colon "github.com" "foo" "bar/baz"); reflexivity.
Defined.

(** X18. On a supported host, found by a parser that returns, [getUrl]
    returns
    [<uri>/blob/<branch>/<filepath>], followed by [#] and the anchor exactly
    when the [lines] argument selects something: an absent argument, an
    empty array and an empty string all give the URL without [#]. *)
Theorem getUrl_anchor (Uri_parse : string -> option Uri)
    (remote branch filepath : string) (lines : lines_arg) (u : Uri) :
  Uri_parse (remote_uri remote) = Some u ->
  startsWith (authority u) "github.com" = true ->
  getUrl Uri_parse remote branch filepath lines
  = Some (remote_uri remote +:+ "/blob/" +:+ branch +:+ "/" +:+ filepath
            +:+ (if selects_lines lines then "#" +:+ line_anchor lines else ""),
          []).
Proof.
  intros Hu Hhost. unfold getUrl. rewrite Hu, Hhost.
  assert (H : String.eqb (line_anchor lines) "" = negb (selects_lines lines)).
  { destruct lines as [|[|l ls]|anchor]; cbn [line_anchor selects_lines negb];
      try reflexivity.
    - cbn [fmap list_fmap String.concat].
      destruct ((fun l0 => "L" +:+ number_to_string l0) <$> ls); reflexivity.
    - destruct (String.eqb anchor ""); reflexivity. }
  rewrite H. destruct (selects_lines lines); reflexivity.
Qed.

(** X18 with the RFC 3986 decomposition as the parser: no lines, an empty
    array, and one line. *)
Lemma getUrl_anchor_witness :
  getUrl parse_uri "https://github.com/foo/bar.git" "main" "x.ts" (LineNumbers [])
  = Some ("https://github.com/foo/bar/blob/main/x.ts", [])
  /\ getUrl parse_uri "https://github.com/foo/bar.git" "main" "x.ts" (LineAnchor "")
     = Some ("https://github.com/foo/bar/blob/main/x.ts", [])
  /\ getUrl parse_uri "https://github.com/foo/bar.git" "main" "x.ts"
            (LineNumbers [NInt 7])
     = Some ("https://github.com/foo/bar/blob/main/x.ts#L7", []).
Proof.
  split; [|split].
  - apply (getUrl_anchor parse_uri "https://github.com/foo/bar.git" "main" "x.ts"
             (LineNumbers [])
             (decompose_uri "https://github.com/foo/bar")); reflexivity.
  - apply (getUrl_anchor parse_uri "https://github.com/foo/bar.git" "main" "x.ts"
             (LineAnchor "")
             (decompose_uri "https://github.com/foo/bar")); reflexivity.
  - apply (getUrl_anchor parse_uri "https://github.com/foo/bar.git" "main" "x.ts"
             (LineNumbers [NInt 7])
             (decompose_uri "https://github.com/foo/bar")); reflexivity.
Defined.
